(** * The snake game ([the_snake.py]): a shallow embedding and its properties

    The game state of [the_snake.py] is embedded as records, its methods as
    functions on them.  Python integers are [Z], tuples are pairs, lists are
    lists, sets are [gset].  The only effects of the program are

    - drawing on the global [screen], kept here as the log of the drawing
      calls made on it;
    - the random source behind [random.choice], given to each function that
      draws from it as the index the generator produces;
    - the event queue of [pygame.event.get], given to [handle_keys] as the
      list of events it returns;
    - exceptions ([IndexError], [SystemExit]), kept as an [outcome] that
      carries the state of the mutated object at the moment of the raise. *)

From stdpp Require Import base decidable option list gmap sets.
From Stdlib Require Import ZArith Lia.

Open Scope Z_scope.

(** ** Constants of the module *)

Definition SCREEN_WIDTH : Z := 640.
Definition SCREEN_HEIGHT : Z := 480.
Definition GRID_SIZE : Z := 20.
Definition GRID_WIDTH : Z := SCREEN_WIDTH `div` GRID_SIZE.
Definition GRID_HEIGHT : Z := SCREEN_HEIGHT `div` GRID_SIZE.

(** A position on the screen, in pixels: the top left corner of a square. *)
Definition cell : Type := Z * Z.

(** A direction is a pair as well. *)
Definition direction_t : Type := Z * Z.

Definition UP : direction_t := (0, -1).
Definition DOWN : direction_t := (0, 1).
Definition LEFT : direction_t := (-1, 0).
Definition RIGHT : direction_t := (1, 0).

Definition color : Type := Z * Z * Z.

Definition BOARD_BACKGROUND_COLOR : color := (0, 0, 0).
Definition BORDER_COLOR : color := (93, 216, 228).
Definition APPLE_COLOR : color := (255, 0, 0).
Definition SNAKE_COLOR : color := (0, 255, 0).

(** ** Exceptions *)

Inductive exn := IndexError | SystemExit.

(** The result of a method that mutates an object of type [A]: it returns,
    or it raises and leaves the object as it was at the raise. *)
Inductive outcome (A : Type) :=
  | Ok (a : A)
  | Raise (e : exn) (a : A).
Arguments Ok {A} a.
Arguments Raise {A} e a.

(** ** The random source

    [random.choice(seq)] is [seq[randbelow(len(seq))]], and raises
    [IndexError] on an empty sequence.  The draw of the generator is the
    argument [rnd]; it is reduced to an index below the length. *)
Definition choice {A : Type} (rnd : nat) (seq : list A) : option A :=
  match seq with
  | [] => None
  | _ :: _ => seq !! (rnd `mod` length seq)%nat
  end.

(** ** The screen: the log of the calls made on the surface, latest first *)

Inductive draw_call :=
  | DrawRect (c : option color) (position : cell) (size : Z * Z) (width : Z)
  | Fill (c : color).

Definition Screen : Type := list draw_call.

(** ** Python values that end up in a set of positions

    [set(snake_positions)] holds whatever iterating the argument yields:
    pairs when the argument is a list of positions, integers when it is a
    single position (a tuple is iterated coordinate by coordinate). *)
Inductive pyval :=
  | VInt (n : Z)
  | VCell (c : cell).

#[global] Instance pyval_eq_dec : EqDecision pyval.
Proof. solve_decision. Defined.

Definition as_cell (v : pyval) : option cell :=
  match v with
  | VCell c => Some c
  | VInt _ => None
  end.

(** Iterating a list of positions. *)
Definition iter_positions (l : list cell) : list pyval := VCell <$> l.

(** Iterating one position, a tuple. *)
Definition iter_tuple (c : cell) : list pyval := [VInt c.1; VInt c.2].

(** ** GameObject and Apple *)

Definition GameObject_position : cell :=
  (SCREEN_WIDTH `div` 2, SCREEN_HEIGHT `div` 2).

Definition draw_rect (body_color : option color) (position : cell)
    (mode : bool) (scr : Screen) : Screen :=
  let size := (GRID_SIZE, GRID_SIZE) in
  if mode then
    DrawRect (Some BORDER_COLOR) position size 1
      :: DrawRect body_color position size 0 :: scr
  else
    DrawRect (Some BOARD_BACKGROUND_COLOR) position size 1
      :: DrawRect (Some BOARD_BACKGROUND_COLOR) position size 0 :: scr.

Module Apple.

Record t := mk {
  position : cell;
  body_color : option color;
}.

(** [range(n)] *)
Definition range (n : Z) : list Z := seqZ 0 n.

(** The generator of [randomize_position], in the order it yields. *)
Definition grid_cells : list cell :=
  x ← range GRID_WIDTH; y ← range GRID_HEIGHT;
  [(x * GRID_SIZE, y * GRID_SIZE)].

Definition available_positions : gset cell := list_to_set grid_cells.

(** [set(snake_positions)], as far as the difference with
    [available_positions] sees it: that set holds pairs only, and a pair
    never equals an integer. *)
Definition occupied (snake_positions : list pyval) : gset cell :=
  list_to_set (omap as_cell snake_positions).

(** [tuple(available_positions - set(snake_positions))] *)
Definition free_positions (snake_positions : list pyval) : list cell :=
  elements (available_positions ∖ occupied snake_positions).

Definition randomize_position (rnd : nat) (snake_positions : list pyval)
    (self : t) : outcome t :=
  match choice rnd (free_positions snake_positions) with
  | Some p => Ok {| position := p; body_color := body_color self |}
  | None => Raise IndexError self
  end.

(** [Apple()] *)
Definition init (rnd : nat) : outcome t :=
  let self := {| position := GameObject_position; body_color := None |} in
  let self := {| position := position self;
                 body_color := Some APPLE_COLOR |} in
  randomize_position rnd (iter_tuple (position self)) self.

Definition draw (self : t) (scr : Screen) : Screen :=
  draw_rect (body_color self) (position self) true scr.

End Apple.

(** ** Snake *)

(** [l.pop()]: the list without its last element, and that element. *)
Definition pop {A : Type} (l : list A) : option (list A * A) :=
  match last l with
  | Some x => Some (removelast l, x)
  | None => None
  end.

Module Snake.

Record t := mk {
  position : cell;
  body_color : option color;
  length : Z;
  positions : list cell;
  old_position : option cell;
  direction : direction_t;
  next_direction : option direction_t;
}.

(** [Snake(direction)]; the default of [direction] is [RIGHT]. *)
Definition init (direction : direction_t) : t :=
  {| position := GameObject_position;
     body_color := Some SNAKE_COLOR;
     length := 1;
     positions := [GameObject_position];
     old_position := None;
     direction := direction;
     next_direction := None |}.

(** A direction is a non-empty tuple, hence true in a condition. *)
Definition update_direction (self : t) : t :=
  match next_direction self with
  | Some d =>
      {| position := position self; body_color := body_color self;
         length := length self; positions := positions self;
         old_position := old_position self;
         direction := d; next_direction := None |}
  | None => self
  end.

Definition get_head_position (self : t) : option cell :=
  positions self !! 0%nat.

Definition get_snake_positions (self : t) : list cell := positions self.

(** The position [move] computes from the head and the direction. *)
Definition new_position (cur_head : cell) (d : direction_t) : cell :=
  ((cur_head.1 + d.1 * GRID_SIZE) `mod` SCREEN_WIDTH,
   (cur_head.2 + d.2 * GRID_SIZE) `mod` SCREEN_HEIGHT).

Definition reset (rnd : nat) (self : t) (scr : Screen)
    : outcome (t * Screen) :=
  match choice rnd [UP; DOWN; LEFT; RIGHT] with
  | Some direction => Ok (init direction, Fill BOARD_BACKGROUND_COLOR :: scr)
  | None => Raise IndexError (self, scr)
  end.

(** [apple] is an object or [None]; an object is true in a condition. *)
Definition move (rnd : nat) (apple : option Apple.t) (self : t)
    (scr : Screen) : outcome (t * Screen) :=
  match get_head_position self with
  | None => Raise IndexError (self, scr)
  | Some cur_head =>
      let new_position := new_position cur_head (direction self) in
      if decide (new_position ∉ drop 2 (positions self)) then
        let positions1 := new_position :: positions self in
        let length1 :=
          if apple is Some _ then length self + 1 else length self in
        let self1 :=
          {| position := position self; body_color := body_color self;
             length := length1; positions := positions1;
             old_position := old_position self;
             direction := direction self;
             next_direction := next_direction self |} in
        if decide (Z.of_nat (List.length positions1) > length1) then
          match pop positions1 with
          | Some (positions2, last) =>
              Ok ({| position := position self;
                     body_color := body_color self;
                     length := length1; positions := positions2;
                     old_position := Some last;
                     direction := direction self;
                     next_direction := next_direction self |}, scr)
          | None => Raise IndexError (self1, scr)
          end
        else Ok (self1, scr)
      else reset rnd self scr
  end.

Definition draw (self : t) (scr : Screen) : outcome Screen :=
  match get_head_position self with
  | None => Raise IndexError scr
  | Some head =>
      let scr := draw_rect (body_color self) head true scr in
      match old_position self with
      | Some p => Ok (draw_rect (body_color self) p false scr)
      | None => Ok scr
      end
  end.

End Snake.

(** ** Input *)

(** The key of a [KEYDOWN] event: the four arrow keys of [pygame], or any
    other key code. *)
Inductive key := K_UP | K_DOWN | K_LEFT | K_RIGHT | K_OTHER (code : Z).

(** An event of the queue: its type, and the key for [KEYDOWN]. *)
Inductive event :=
  | QUIT
  | KEYDOWN (k : key)
  | OTHER_EVENT (type : Z).

#[global] Instance key_eq_dec : EqDecision key.
Proof. solve_decision. Defined.

(** [d.get(k)] on a dictionary given by its items. *)
Fixpoint dict_get {K V : Type} `{EqDecision K} (d : list (K * V)) (k : K)
    : option V :=
  match d with
  | [] => None
  | (k', v) :: d' => if decide (k' = k) then Some v else dict_get d' k
  end.

Definition events_dict : list ((key * direction_t) * direction_t) :=
  [ ((K_UP, LEFT), UP);
    ((K_UP, RIGHT), UP);
    ((K_DOWN, LEFT), DOWN);
    ((K_DOWN, RIGHT), DOWN);
    ((K_LEFT, DOWN), LEFT);
    ((K_LEFT, UP), LEFT);
    ((K_RIGHT, DOWN), RIGHT);
    ((K_RIGHT, UP), RIGHT) ].

(** The assignment [game_object.next_direction = v]. *)
Definition set_next_direction (v : option direction_t) (s : Snake.t)
    : Snake.t :=
  {| Snake.position := Snake.position s;
     Snake.body_color := Snake.body_color s;
     Snake.length := Snake.length s;
     Snake.positions := Snake.positions s;
     Snake.old_position := Snake.old_position s;
     Snake.direction := Snake.direction s;
     Snake.next_direction := v |}.

(** One turn of the loop over the events. *)
Definition handle_event (e : event) (game_object : Snake.t)
    : outcome Snake.t :=
  match e with
  | QUIT => Raise SystemExit game_object
  | KEYDOWN k =>
      Ok (set_next_direction
            (dict_get events_dict (k, Snake.direction game_object))
            game_object)
  | OTHER_EVENT _ => Ok game_object
  end.

(** [events] is what [pygame.event.get()] returns. *)
Fixpoint handle_keys (events : list event) (game_object : Snake.t)
    : outcome Snake.t :=
  match events with
  | [] => Ok game_object
  | e :: events' =>
      match handle_event e game_object with
      | Ok game_object' => handle_keys events' game_object'
      | Raise x game_object' => Raise x game_object'
      end
  end.

(** ** The game loop *)

Record Game := mkGame {
  snake : Snake.t;
  apple : Apple.t;
  screen : Screen;
}.

(** The value of a call that returned. *)
Definition returned {A : Type} (o : outcome A) : option A :=
  match o with
  | Ok a => Some a
  | Raise _ _ => None
  end.

(** [main] up to the loop; [None] when [Apple()] raises. *)
Definition main_init (rnd : nat) (scr : Screen) : option Game :=
  let snake := Snake.init RIGHT in
  apple ← returned (Apple.init rnd);
  Some {| snake := snake; apple := apple;
          screen := Fill BOARD_BACKGROUND_COLOR :: scr |}.

(** The test [snake.get_head_position() == apple.position]. *)
Definition ate_item (s : Snake.t) (a : Apple.t) : bool :=
  bool_decide (Snake.get_head_position s = Some (Apple.position a)).

(** One iteration of the loop of [main]: [events] is the event queue at
    this tick, [rnd_dir] the draw used by [reset], [rnd_pos] the draw used
    by [randomize_position]. *)
Definition tick (events : list event) (rnd_dir rnd_pos : nat) (g : Game)
    : outcome Game :=
  let scr := Apple.draw (apple g) (screen g) in
  match Snake.draw (snake g) scr with
  | Raise x scr => Raise x {| snake := snake g; apple := apple g; screen := scr |}
  | Ok scr =>
  match handle_keys events (snake g) with
  | Raise x s => Raise x {| snake := s; apple := apple g; screen := scr |}
  | Ok s =>
  let s := Snake.update_direction s in
  match Snake.get_head_position s with
  | None => Raise IndexError {| snake := s; apple := apple g; screen := scr |}
  | Some head =>
      if decide (head = Apple.position (apple g)) then
        match Snake.move rnd_dir (Some (apple g)) s scr with
        | Raise x (s, scr) =>
            Raise x {| snake := s; apple := apple g; screen := scr |}
        | Ok (s, scr) =>
            match Apple.randomize_position rnd_pos
                    (iter_positions (Snake.get_snake_positions s))
                    (apple g) with
            | Raise x a => Raise x {| snake := s; apple := a; screen := scr |}
            | Ok a => Ok {| snake := s; apple := a; screen := scr |}
            end
        end
      else
        match Snake.move rnd_dir None s scr with
        | Raise x (s, scr) =>
            Raise x {| snake := s; apple := apple g; screen := scr |}
        | Ok (s, scr) =>
            Ok {| snake := s; apple := apple g; screen := scr |}
        end
  end end end.


(** ** The grid in cells

    The spec speaks of cells of a [GRID_WIDTH] by [GRID_HEIGHT] torus; the
    code keeps the pixel position of the corner of each cell. *)

(** The pixel position of the cell [c]. *)
Definition to_pixels (c : Z * Z) : cell := (c.1 * GRID_SIZE, c.2 * GRID_SIZE).

(** The [wrap] of the spec, on cells: each coordinate is reduced modulo the
    extent of the grid. *)
Definition spec_wrap (c : Z * Z) : Z * Z :=
  (c.1 `mod` GRID_WIDTH, c.2 `mod` GRID_HEIGHT).

(** ** Directions *)

Definition directions : list direction_t := [UP; DOWN; LEFT; RIGHT].

(** The exact opposite of a direction. *)
Definition opposite (d : direction_t) : direction_t := (- d.1, - d.2).

(** A pending direction that [update_direction] may apply while the
    direction is [d]: one of the four, and not the opposite of [d]. *)
Definition pending_ok (d : direction_t) (nd : option direction_t) : Prop :=
  ∀ d', nd = Some d' → d' ∈ directions ∧ d' ≠ opposite d.

(** ** The states of the snake the game goes through

    The snake starts as [Snake()]; each tick drains the events and applies
    the pending direction, then moves. *)

(** The input drain followed by [update_direction]. *)
Inductive drain_apply_step : Snake.t → Snake.t → Prop :=
  | drain_apply_intro events s s1 :
      handle_keys events s = Ok s1 →
      drain_apply_step s (Snake.update_direction s1).

Inductive reachable : Snake.t → Prop :=
  | reachable_init : reachable (Snake.init RIGHT)
  | reachable_drain_apply s s' :
      reachable s → drain_apply_step s s' → reachable s'
  | reachable_move rnd apple s scr s' scr' :
      reachable s → Snake.move rnd apple s scr = Ok (s', scr') →
      reachable s'.

(** ** Notions used to state further properties *)

(** The direction an arrow key asks for. *)
Definition key_direction (k : key) : option direction_t :=
  match k with
  | K_UP => Some UP
  | K_DOWN => Some DOWN
  | K_LEFT => Some LEFT
  | K_RIGHT => Some RIGHT
  | K_OTHER _ => None
  end.

(** The key of the last [KEYDOWN] event of a queue. *)
Fixpoint last_keydown (events : list event) : option key :=
  match events with
  | [] => None
  | e :: events' =>
      match last_keydown events' with
      | Some k => Some k
      | None => if e is KEYDOWN k then Some k else None
      end
  end.

(** Inside the screen. *)
Definition in_bounds (c : cell) : Prop :=
  0 ≤ c.1 < SCREEN_WIDTH ∧ 0 ≤ c.2 < SCREEN_HEIGHT.

(** [n] steps from [c] in the direction [d]. *)
Definition steps (n : nat) (d : direction_t) (c : cell) : cell :=
  Nat.iter n (λ c, Snake.new_position c d) c.

(** [a] is one step away from [b]. *)
Definition adjacent (a b : cell) : Prop :=
  ∃ d, d ∈ directions ∧ a = Snake.new_position b d.

(** Each cell of the body is one step away from the next one. *)
Definition connected (l : list cell) : Prop :=
  ∀ (i : nat) a b, l !! i = Some a → l !! S i = Some b → adjacent a b.

(** What holds of the snake at the start of every tick. *)
Record snake_inv (s : Snake.t) : Prop := mk_snake_inv {
  inv_nonempty : Snake.positions s ≠ [];
  inv_length : Z.of_nat (length (Snake.positions s)) = Snake.length s;
  inv_grid : Forall (λ c, c ∈ Apple.grid_cells) (Snake.positions s);
  inv_connected : connected (Snake.positions s);
  inv_direction : Snake.direction s ∈ directions;
  inv_pending : Snake.next_direction s = None;
}.

(** What holds of the game at the start of every tick: the apple is on the
    grid, and not under the snake behind its head. *)
Record game_inv (g : Game) : Prop := mk_game_inv {
  inv_snake : snake_inv (snake g);
  inv_apple_grid : Apple.position (apple g) ∈ Apple.grid_cells;
  inv_apple_tail :
    Apple.position (apple g) ∉ drop 1 (Snake.positions (snake g));
}.

(** The loop of [main] over the first ticks: each tick with its event queue
    and its two draws.  An exception ends the loop. *)
Fixpoint main_loop (inputs : list (list event * nat * nat)) (g : Game)
    : outcome Game :=
  match inputs with
  | [] => Ok g
  | (events, rnd_dir, rnd_pos) :: inputs' =>
      match tick events rnd_dir rnd_pos g with
      | Ok g' => main_loop inputs' g'
      | Raise x g' => Raise x g'
      end
  end.

(** ** Game states used as examples *)

(** The snake of [main] before the first tick, the apple one cell ahead. *)
Definition game_item_ahead : Game :=
  {| snake := Snake.init RIGHT;
     apple := {| Apple.position := (340, 240);
                 Apple.body_color := Some APPLE_COLOR |};
     screen := [] |}.

(** A snake of five cells that has just turned up onto the apple; turning
    right sends its head to its fourth cell. *)
Definition coiled_snake : Snake.t :=
  {| Snake.position := GameObject_position;
     Snake.body_color := Some SNAKE_COLOR;
     Snake.length := 5;
     Snake.positions :=
       [(100, 100); (100, 120); (120, 120); (120, 100); (140, 100)];
     Snake.old_position := Some (160, 100);
     Snake.direction := UP;
     Snake.next_direction := None |}.

Definition game_coiled : Game :=
  {| snake := coiled_snake;
     apple := {| Apple.position := (100, 100);
                 Apple.body_color := Some APPLE_COLOR |};
     screen := [] |}.

(** * Properties *)

(** ** [choice] *)

Section choice_facts.
Context {A : Type}.
Implicit Types (seq : list A) (rnd : nat).

Lemma choice_nil rnd : @choice A rnd [] = None.
Proof. reflexivity. Qed.

Lemma choice_is_Some rnd seq : seq ≠ [] → is_Some (choice rnd seq).
Proof.
  destruct seq as [|x seq']; [done|]. intros _. unfold choice.
  apply lookup_lt_is_Some. apply Nat.mod_upper_bound. done.
Qed.

Lemma choice_elem_of rnd seq x : choice rnd seq = Some x → x ∈ seq.
Proof.
  destruct seq as [|y seq']; [done|]. unfold choice. intros Hx.
  eapply list_elem_of_lookup_2. exact Hx.
Qed.

Lemma choice_None rnd seq : choice rnd seq = None → seq = [].
Proof.
  intros Hn. destruct seq as [|y seq']; [done|].
  destruct (choice_is_Some rnd (y :: seq')) as [x Hx]; [done|]. congruence.
Qed.

Lemma choice_singleton rnd (x : A) : choice rnd [x] = Some x.
Proof. unfold choice. change (length [x]) with 1%nat. by rewrite Nat.mod_1_r. Qed.

(** Every element of the sequence is the result of some draw. *)
Lemma choice_surjective seq x : x ∈ seq → ∃ rnd, choice rnd seq = Some x.
Proof.
  intros Hx. apply list_elem_of_lookup_1 in Hx as [i Hi].
  exists i. destruct seq as [|y seq']; [done|]. unfold choice.
  rewrite Nat.mod_small; [done|]. by eapply lookup_lt_Some.
Qed.
End choice_facts.

(** ** The grid *)

Lemma elem_of_grid_cells (c : cell) :
  c ∈ Apple.grid_cells ↔
  ∃ x y, 0 ≤ x < GRID_WIDTH ∧ 0 ≤ y < GRID_HEIGHT ∧
         c = (x * GRID_SIZE, y * GRID_SIZE).
Proof.
  unfold Apple.grid_cells, Apple.range. rewrite list_elem_of_bind. split.
  - intros (x & Hc & Hx). apply list_elem_of_bind in Hc as (y & Hc & Hy).
    apply list_elem_of_singleton in Hc. apply elem_of_seqZ in Hx, Hy.
    exists x, y. repeat split; try lia. done.
  - intros (x & y & Hx & Hy & ->). exists x. split.
    + apply list_elem_of_bind. exists y. split; [by apply list_elem_of_singleton|].
      apply elem_of_seqZ. lia.
    + apply elem_of_seqZ. lia.
Qed.

Lemma elem_of_occupied (c : cell) (snake_positions : list pyval) :
  c ∈ Apple.occupied snake_positions ↔ VCell c ∈ snake_positions.
Proof.
  unfold Apple.occupied. rewrite elem_of_list_to_set, list_elem_of_omap. split.
  - intros (v & Hv & Hc). destruct v as [n|c']; simplify_eq/=. done.
  - intros Hc. exists (VCell c). done.
Qed.

Lemma elem_of_free_positions (c : cell) (snake_positions : list pyval) :
  c ∈ Apple.free_positions snake_positions ↔
  c ∈ Apple.grid_cells ∧ VCell c ∉ snake_positions.
Proof.
  unfold Apple.free_positions, Apple.available_positions.
  rewrite elem_of_elements, elem_of_difference, elem_of_list_to_set.
  by rewrite elem_of_occupied.
Qed.

(** ** Relocation of the apple *)

Lemma randomize_position_Ok rnd (snake_positions : list pyval)
    (self self' : Apple.t) :
  Apple.randomize_position rnd snake_positions self = Ok self' →
  choice rnd (Apple.free_positions snake_positions)
    = Some (Apple.position self') ∧
  Apple.position self' ∈ Apple.grid_cells ∧
  (VCell (Apple.position self') ∉ snake_positions) ∧
  Apple.body_color self' = Apple.body_color self.
Proof.
  unfold Apple.randomize_position.
  destruct (choice rnd _) as [p|] eqn:Hp; [|done].
  intros [= <-]. simpl. apply choice_elem_of in Hp as Hfree.
  apply elem_of_free_positions in Hfree as [??]. done.
Qed.

Lemma randomize_position_Raise rnd (snake_positions : list pyval)
    (self self' : Apple.t) x :
  Apple.randomize_position rnd snake_positions self = Raise x self' →
  x = IndexError ∧ self' = self ∧ Apple.free_positions snake_positions = [].
Proof.
  unfold Apple.randomize_position.
  destruct (choice rnd _) as [p|] eqn:Hp; [done|].
  intros [= <- <-]. apply choice_None in Hp. done.
Qed.

(** Relocation returns whenever a grid cell is free, and lands on such a
    cell. *)
Lemma randomize_position_lands rnd (snake_positions : list pyval)
    (self : Apple.t) :
  (∃ c, c ∈ Apple.grid_cells ∧ VCell c ∉ snake_positions) →
  ∃ p,
    Apple.randomize_position rnd snake_positions self
      = Ok {| Apple.position := p;
              Apple.body_color := Apple.body_color self |} ∧
    p ∈ Apple.grid_cells ∧
    VCell p ∉ snake_positions.
Proof.
  intros (c0 & Hgrid & Hfree).
  assert (Apple.free_positions snake_positions ≠ []) as Hne.
  { intros Hnil. assert (c0 ∈ Apple.free_positions snake_positions) as Hc0
      by by apply elem_of_free_positions.
    rewrite Hnil in Hc0. by apply not_elem_of_nil in Hc0. }
  destruct (choice_is_Some rnd _ Hne) as [p Hp].
  exists p. unfold Apple.randomize_position. rewrite Hp.
  apply choice_elem_of, elem_of_free_positions in Hp as [Hpg Hpf]. done.
Qed.

(** C7: when some grid cell is outside the occupied set, relocation returns;
    the new position is a grid cell outside the occupied set, and it is the
    only free cell whenever all the others are occupied; of the apple only
    the position changes (the colour is kept, and the call has no other
    state to change). *)
Theorem randomize_position_free rnd (snake_positions : list pyval)
    (self : Apple.t) :
  (∃ c, c ∈ Apple.grid_cells ∧ VCell c ∉ snake_positions) →
  ∃ p,
    Apple.randomize_position rnd snake_positions self
      = Ok {| Apple.position := p;
              Apple.body_color := Apple.body_color self |} ∧
    p ∈ Apple.grid_cells ∧
    (VCell p ∉ snake_positions) ∧
    (∀ c, c ∈ Apple.grid_cells → VCell c ∉ snake_positions →
          (∀ c', c' ∈ Apple.grid_cells → c' ≠ c → VCell c' ∈ snake_positions) →
          p = c).
Proof.
  intros Hsome.
  destruct (randomize_position_lands rnd snake_positions self Hsome)
    as (p & Hret & Hgrid & Hfree).
  exists p. split; [exact Hret|]. split; [exact Hgrid|].
  split; [exact Hfree|].
  intros c _ _ Hothers. destruct (decide (p = c)) as [Heq|Hne]; [exact Heq|].
  destruct Hfree. by apply Hothers.
Qed.

(** C10: when every grid cell is in the occupied set, relocation raises
    [IndexError] (the [choice] over an empty tuple) and leaves the apple as
    it was. *)
Theorem randomize_position_exhausted rnd (snake_positions : list pyval)
    (self : Apple.t) :
  (∀ c, c ∈ Apple.grid_cells → VCell c ∈ snake_positions) →
  Apple.randomize_position rnd snake_positions self = Raise IndexError self.
Proof.
  intros Hall. unfold Apple.randomize_position.
  destruct (choice rnd _) as [p|] eqn:Hp; [|done].
  apply choice_elem_of, elem_of_free_positions in Hp as [Hpg Hpf].
  destruct Hpf. by apply Hall.
Qed.

(** ** Movement of the snake *)

Lemma length_removelast_cons {A : Type} (y : A) (l : list A) :
  length (removelast (y :: l)) = length l.
Proof.
  revert y. induction l as [|z l IH]; intros y; [done|].
  change (removelast (y :: z :: l)) with (y :: removelast (z :: l)).
  cbn [length]. by rewrite IH.
Qed.

(** [pop] on a list of two elements or more keeps the first one. *)
Lemma pop_cons_cons {A : Type} (x y : A) (l : list A) :
  ∃ z, pop (x :: y :: l) = Some (x :: removelast (y :: l), z) ∧
       z ∈ y :: l.
Proof.
  unfold pop. rewrite last_cons_cons.
  destruct (last (y :: l)) as [z|] eqn:Hz.
  - exists z. split; [done|].
    apply last_Some in Hz as [l' Hl']. rewrite Hl'. set_solver.
  - by apply last_None in Hz.
Qed.

Lemma new_position_in_bounds (cur_head : cell) (d : direction_t) :
  0 ≤ (Snake.new_position cur_head d).1 < SCREEN_WIDTH ∧
  0 ≤ (Snake.new_position cur_head d).2 < SCREEN_HEIGHT.
Proof.
  unfold Snake.new_position, SCREEN_WIDTH, SCREEN_HEIGHT. simpl.
  split; apply Z.mod_pos_bound; lia.
Qed.

(** On cell corners the code's arithmetic on pixels is the spec's [wrap]
    on cells. *)
Lemma new_position_wrap (c : Z * Z) (d : direction_t) :
  Snake.new_position (to_pixels c) d
    = to_pixels (spec_wrap (c.1 + d.1, c.2 + d.2)).
Proof.
  unfold Snake.new_position, to_pixels, spec_wrap. simpl.
  change SCREEN_WIDTH with (32 * GRID_SIZE).
  change SCREEN_HEIGHT with (24 * GRID_SIZE).
  change GRID_WIDTH with 32. change GRID_HEIGHT with 24.
  rewrite <- !Z.mul_add_distr_r.
  rewrite !Z.mul_mod_distr_r by (unfold GRID_SIZE; lia). done.
Qed.

Lemma spec_wrap_in_bounds (c : Z * Z) :
  0 ≤ (spec_wrap c).1 < GRID_WIDTH ∧ 0 ≤ (spec_wrap c).2 < GRID_HEIGHT.
Proof.
  unfold spec_wrap. simpl. split; apply Z.mod_pos_bound; done.
Qed.

(** The four edges of the grid. *)
Lemma new_position_right_edge (y : Z) :
  0 ≤ y < GRID_HEIGHT →
  Snake.new_position (to_pixels (GRID_WIDTH - 1, y)) RIGHT = to_pixels (0, y).
Proof.
  intros Hy. rewrite new_position_wrap. unfold spec_wrap. simpl.
  rewrite Z.add_0_r, (Z.mod_small y) by done. done.
Qed.

Lemma new_position_left_edge (y : Z) :
  0 ≤ y < GRID_HEIGHT →
  Snake.new_position (to_pixels (0, y)) LEFT
    = to_pixels (GRID_WIDTH - 1, y).
Proof.
  intros Hy. rewrite new_position_wrap. unfold spec_wrap. simpl.
  rewrite Z.add_0_r, (Z.mod_small y) by done. done.
Qed.

Lemma new_position_bottom_edge (x : Z) :
  0 ≤ x < GRID_WIDTH →
  Snake.new_position (to_pixels (x, GRID_HEIGHT - 1)) DOWN = to_pixels (x, 0).
Proof.
  intros Hx. rewrite new_position_wrap. unfold spec_wrap. simpl.
  rewrite Z.add_0_r, (Z.mod_small x) by done. done.
Qed.

Lemma new_position_top_edge (x : Z) :
  0 ≤ x < GRID_WIDTH →
  Snake.new_position (to_pixels (x, 0)) UP = to_pixels (x, GRID_HEIGHT - 1).
Proof.
  intros Hx. rewrite new_position_wrap. unfold spec_wrap. simpl.
  rewrite Z.add_0_r, (Z.mod_small x) by done. done.
Qed.

(** What [move] does when the new position is not in [positions[2:]]. *)
Lemma move_no_collision rnd apple (self : Snake.t) scr cur_head rest :
  Snake.positions self = cur_head :: rest →
  Snake.new_position cur_head (Snake.direction self) ∉ drop 2 (Snake.positions self) →
  ∃ self',
    Snake.move rnd apple self scr = Ok (self', scr) ∧
    Snake.length self'
      = (if apple is Some _ then Snake.length self + 1 else Snake.length self) ∧
    Snake.direction self' = Snake.direction self ∧
    Snake.next_direction self' = Snake.next_direction self ∧
    ((Z.of_nat (S (length (Snake.positions self))) > Snake.length self' ∧
      Snake.positions self'
        = Snake.new_position cur_head (Snake.direction self)
            :: removelast (Snake.positions self) ∧
      is_Some (Snake.old_position self')) ∨
     (¬ Z.of_nat (S (length (Snake.positions self))) > Snake.length self' ∧
      Snake.positions self'
        = Snake.new_position cur_head (Snake.direction self)
            :: Snake.positions self ∧
      Snake.old_position self' = Snake.old_position self)).
Proof.
  intros Hpos Hfree. unfold Snake.move, Snake.get_head_position.
  rewrite Hpos in Hfree |- *. simpl lookup. cbv beta iota zeta.
  rewrite decide_True by done.
  case_decide as Hlen.
  - destruct (pop_cons_cons (Snake.new_position cur_head (Snake.direction self))
                cur_head rest) as (z & -> & _).
    eexists. split; [done|]. simpl. repeat split; try done.
    left. split; [exact Hlen|]. split; [done|]. by eexists.
  - eexists. split; [done|]. simpl. repeat split; try done.
    right. done.
Qed.

Lemma elem_of_directions (d : direction_t) :
  d ∈ directions ↔ d = UP ∨ d = DOWN ∨ d = LEFT ∨ d = RIGHT.
Proof.
  unfold directions. rewrite !elem_of_cons, elem_of_nil. tauto.
Qed.

(** [reset] returns a fresh snake; its direction is the entry of the list
    of directions at the index drawn. *)
Lemma reset_Ok rnd (self : Snake.t) scr :
  ∃ d,
    Snake.reset rnd self scr
      = Ok (Snake.init d, Fill BOARD_BACKGROUND_COLOR :: scr) ∧
    directions !! (rnd `mod` 4)%nat = Some d ∧
    d ∈ directions.
Proof.
  unfold Snake.reset.
  destruct (choice rnd [UP; DOWN; LEFT; RIGHT]) as [d|] eqn:Hd.
  - exists d. split; [done|]. split; [exact Hd|]. by apply choice_elem_of in Hd.
  - by apply choice_None in Hd.
Qed.

(** Each of the four directions is the outcome of the draws of one residue
    class modulo four. *)
Lemma reset_direction_classes rnd :
  directions !! (rnd `mod` 4)%nat =
    match (rnd `mod` 4)%nat with
    | 0%nat => Some UP
    | 1%nat => Some DOWN
    | 2%nat => Some LEFT
    | _ => Some RIGHT
    end.
Proof.
  pose proof (Nat.mod_upper_bound rnd 4 ltac:(done)) as Hlt.
  destruct (rnd `mod` 4)%nat as [|[|[|[|n]]]]; try done. lia.
Qed.

(** When the new position is in [positions[2:]], [move] is [reset]: a
    fresh snake in the direction drawn, and the screen filled. *)
Lemma move_collision rnd apple (self : Snake.t) scr cur_head :
  Snake.get_head_position self = Some cur_head →
  Snake.new_position cur_head (Snake.direction self)
    ∈ drop 2 (Snake.positions self) →
  ∃ d,
    Snake.move rnd apple self scr
      = Ok (Snake.init d, Fill BOARD_BACKGROUND_COLOR :: scr) ∧
    directions !! (rnd `mod` 4)%nat = Some d ∧
    d ∈ directions.
Proof.
  intros Hhead Hin. unfold Snake.move. rewrite Hhead. cbv beta iota zeta.
  rewrite decide_False by (intros Hnot; by apply Hnot).
  apply reset_Ok.
Qed.

(** C4: when the new position is in [positions[2:]], [move] leaves the
    positions alone and resets the snake: the result is a fresh snake of
    length 1 whose only cell is the centre of the grid, with no pending
    direction and no removed tail, and whose direction is the entry of
    [UP; DOWN; LEFT; RIGHT] at the index drawn (so a uniform draw gives a
    uniform direction). *)
Theorem move_collision_resets rnd apple (self : Snake.t) scr cur_head :
  Snake.get_head_position self = Some cur_head →
  Snake.new_position cur_head (Snake.direction self)
    ∈ drop 2 (Snake.positions self) →
  ∃ d self',
    Snake.move rnd apple self scr
      = Ok (self', Fill BOARD_BACKGROUND_COLOR :: scr) ∧
    self' = Snake.init d ∧
    Snake.length self' = 1 ∧
    Snake.positions self' = [(320, 240)] ∧
    Snake.next_direction self' = None ∧
    Snake.old_position self' = None ∧
    Snake.direction self' = d ∧
    d ∈ directions ∧
    directions !! (rnd `mod` 4)%nat = Some d.
Proof.
  intros Hhead Hin.
  destruct (move_collision rnd apple self scr cur_head Hhead Hin)
    as (d & Hmove & Hidx & Hd).
  exists d, (Snake.init d). split; [exact Hmove|]. split; [reflexivity|].
  unfold Snake.init. cbn [Snake.length Snake.positions Snake.next_direction
    Snake.old_position Snake.direction].
  repeat split; [exact Hd|exact Hidx].
Qed.

(** The head [move] leaves when it does not reset. *)
Lemma move_no_collision_head rnd apple (self : Snake.t) scr cur_head :
  Snake.get_head_position self = Some cur_head →
  Snake.new_position cur_head (Snake.direction self)
    ∉ drop 2 (Snake.positions self) →
  ∃ self',
    Snake.move rnd apple self scr = Ok (self', scr) ∧
    Snake.get_head_position self'
      = Some (Snake.new_position cur_head (Snake.direction self)).
Proof.
  intros Hhead Hfree. unfold Snake.get_head_position in Hhead.
  destruct (Snake.positions self) as [|h rest] eqn:Hpos; [done|].
  simpl in Hhead. injection Hhead as ->.
  destruct (move_no_collision rnd apple self scr cur_head rest Hpos)
    as (self' & Hmove & _ & _ & _ & Hcases).
  { by rewrite Hpos. }
  exists self'. split; [done|]. unfold Snake.get_head_position.
  destruct Hcases as [(_ & -> & _)|(_ & -> & _)]; done.
Qed.

(** C5: when the new position is not in [positions[2:]], [move] returns
    and the new head is the old head plus the direction times the cell
    size, each coordinate reduced by the floored modulo of [Z]: it lies in
    [0, SCREEN_WIDTH) x [0, SCREEN_HEIGHT), and for a head on the corner
    of a cell [c] it is the corner of the cell [wrap (c + direction)],
    which lies in [0, GRID_WIDTH) x [0, GRID_HEIGHT). *)
Theorem move_new_head rnd apple (self : Snake.t) scr cur_head :
  Snake.get_head_position self = Some cur_head →
  Snake.new_position cur_head (Snake.direction self)
    ∉ drop 2 (Snake.positions self) →
  let d := Snake.direction self in
  let new_head := Snake.new_position cur_head d in
  ∃ self',
    Snake.move rnd apple self scr = Ok (self', scr) ∧
    Snake.get_head_position self' = Some new_head ∧
    (0 ≤ new_head.1 < SCREEN_WIDTH ∧ 0 ≤ new_head.2 < SCREEN_HEIGHT) ∧
    (∀ c : Z * Z, cur_head = to_pixels c →
       let c' := spec_wrap (c.1 + d.1, c.2 + d.2) in
       new_head = to_pixels c' ∧
       0 ≤ c'.1 < GRID_WIDTH ∧ 0 ≤ c'.2 < GRID_HEIGHT).
Proof.
  intros Hhead Hfree d new_head.
  destruct (move_no_collision_head rnd apple self scr cur_head Hhead Hfree)
    as (self' & Hmove & Hnew).
  exists self'. split; [exact Hmove|]. split; [exact Hnew|].
  split; [apply new_position_in_bounds|].
  intros c -> c'. split; [apply new_position_wrap|apply spec_wrap_in_bounds].
Qed.

(** C6: from a snake with a non-empty body whose number of cells is its
    length, [move] returns, with an apple or without, with a collision or
    without, and leaves a snake with a non-empty body whose number of cells
    is its length (at least 1). *)
Theorem move_length_invariant rnd apple (self : Snake.t) scr :
  Snake.positions self ≠ [] →
  Z.of_nat (length (Snake.positions self)) = Snake.length self →
  ∃ self' scr',
    Snake.move rnd apple self scr = Ok (self', scr') ∧
    Snake.positions self' ≠ [] ∧
    Z.of_nat (length (Snake.positions self')) = Snake.length self' ∧
    1 ≤ Snake.length self'.
Proof.
  intros Hne Hlen.
  destruct (Snake.positions self) as [|cur_head rest] eqn:Hpos; [done|].
  destruct (decide (Snake.new_position cur_head (Snake.direction self)
                      ∈ drop 2 (Snake.positions self))) as [Hin|Hfree].
  - destruct (move_collision rnd apple self scr cur_head)
      as (d & Hmove & _);
      [by unfold Snake.get_head_position; rewrite Hpos|done|].
    eexists _, _. split; [exact Hmove|]. done.
  - destruct (move_no_collision rnd apple self scr cur_head rest Hpos Hfree)
      as (self' & Hmove & Hl & _ & _ & Hcases).
    exists self', scr. split; [done|]. rewrite Hpos in Hcases.
    destruct Hcases as [(Hgt & Hp & _)|(Hle & Hp & _)]; rewrite Hp, Hl in *.
    + split; [done|]. rewrite length_cons, length_removelast_cons.
      cbn [length] in *. destruct apple; lia.
    + split; [done|]. cbn [length] in *. destruct apple; lia.
Qed.

(** ** Input and direction *)

(** The dictionary maps a key and a direction to a turn at a right angle:
    the result is never the opposite of the direction looked up. *)
Lemma events_dict_turn (k : key) (d d' : direction_t) :
  dict_get events_dict (k, d) = Some d' →
  d ∈ directions ∧ d' ∈ directions ∧ d' ≠ opposite d ∧ d' ≠ d.
Proof.
  unfold events_dict. cbn [dict_get]. rewrite !elem_of_directions.
  repeat case_decide; intros; simplify_eq; by intuition.
Qed.

(** The opposite of the current direction, like the direction itself and
    any key that is not an arrow, has no entry. *)
Lemma events_dict_opposite (k : key) (d : direction_t) :
  d ∈ directions →
  dict_get events_dict (k, d) ≠ Some (opposite d).
Proof.
  intros _ Hget. apply events_dict_turn in Hget. by intuition.
Qed.

Lemma events_dict_other (code : Z) (d : direction_t) :
  dict_get events_dict (K_OTHER code, d) = None.
Proof.
  unfold events_dict. cbn [dict_get]. by repeat case_decide.
Qed.

(** A key press stores the result of the lookup, [None] included. *)
Lemma handle_event_KEYDOWN (k : key) (s : Snake.t) :
  handle_event (KEYDOWN k) s
    = Ok (set_next_direction (dict_get events_dict (k, Snake.direction s)) s).
Proof. reflexivity. Qed.

Lemma handle_event_frame (e : event) (s s' : Snake.t) :
  handle_event e s = Ok s' →
  Snake.positions s' = Snake.positions s ∧
  Snake.length s' = Snake.length s ∧
  Snake.direction s' = Snake.direction s ∧
  Snake.old_position s' = Snake.old_position s ∧
  Snake.body_color s' = Snake.body_color s.
Proof. destruct e; intros [= <-]; done. Qed.

Lemma handle_event_pending_ok (e : event) (s s' : Snake.t) :
  handle_event e s = Ok s' →
  pending_ok (Snake.direction s) (Snake.next_direction s) →
  pending_ok (Snake.direction s') (Snake.next_direction s').
Proof.
  destruct e as [|k|ty]; intros [= <-] Hok; [|done].
  intros d' Hd'. simpl in Hd'. apply events_dict_turn in Hd'.
  simpl. by intuition.
Qed.

Lemma handle_keys_frame (events : list event) (s s' : Snake.t) :
  handle_keys events s = Ok s' →
  Snake.positions s' = Snake.positions s ∧
  Snake.length s' = Snake.length s ∧
  Snake.direction s' = Snake.direction s ∧
  Snake.old_position s' = Snake.old_position s ∧
  Snake.body_color s' = Snake.body_color s.
Proof.
  revert s. induction events as [|e events IH]; intros s; simpl.
  - by intros [= <-].
  - destruct (handle_event e s) as [s1|x s1] eqn:He; [|done].
    intros Hrest. apply IH in Hrest as (-> & -> & -> & -> & ->).
    by apply handle_event_frame in He.
Qed.

Lemma handle_keys_pending_ok (events : list event) (s s' : Snake.t) :
  handle_keys events s = Ok s' →
  pending_ok (Snake.direction s) (Snake.next_direction s) →
  pending_ok (Snake.direction s') (Snake.next_direction s').
Proof.
  revert s. induction events as [|e events IH]; intros s; simpl.
  - by intros [= <-].
  - destruct (handle_event e s) as [s1|x s1] eqn:He; [|done].
    intros Hrest Hok. eapply IH; [done|]. by eapply handle_event_pending_ok.
Qed.

(** The drain raises only on a [QUIT] event. *)
Lemma handle_keys_Ok (events : list event) (s : Snake.t) :
  QUIT ∉ events → ∃ s', handle_keys events s = Ok s'.
Proof.
  revert s. induction events as [|e events IH]; intros s Hq; simpl.
  - by eexists.
  - apply not_elem_of_cons in Hq as [Hne Hq].
    destruct e as [|k|ty]; [done| |]; simpl; by apply IH.
Qed.

Lemma update_direction_positions (s : Snake.t) :
  Snake.positions (Snake.update_direction s) = Snake.positions s.
Proof. unfold Snake.update_direction. by destruct (Snake.next_direction s). Qed.

Lemma direction_not_opposite (d : direction_t) :
  d ∈ directions → d ≠ opposite d.
Proof.
  rewrite elem_of_directions. intros [-> | [-> | [-> | ->]]]; done.
Qed.

(** At every state the game goes through, the direction is one of the four
    and nothing is pending: [update_direction] has consumed the request. *)
Lemma reachable_inv (s : Snake.t) :
  reachable s →
  Snake.direction s ∈ directions ∧ Snake.next_direction s = None.
Proof.
  induction 1 as [|s s' _ [Hd Hn] Hstep|rnd apple s scr s' scr' _ [Hd Hn] Hmove].
  - split; [|done]. apply elem_of_directions. by intuition.
  - destruct Hstep as [events s s1 Hkeys].
    pose proof (handle_keys_frame _ _ _ Hkeys) as (_ & _ & Hdir & _).
    assert (pending_ok (Snake.direction s1) (Snake.next_direction s1)) as Hok.
    { eapply handle_keys_pending_ok; [done|]. rewrite Hn. by intros d' ?. }
    unfold Snake.update_direction.
    destruct (Snake.next_direction s1) as [d'|] eqn:Hn1; simpl.
    + split; [|done]. by destruct (Hok d').
    + split; [by rewrite Hdir|done].
  - destruct (Snake.positions s) as [|cur_head rest] eqn:Hpos.
    { unfold Snake.move, Snake.get_head_position in Hmove.
      by rewrite Hpos in Hmove. }
    destruct (decide (Snake.new_position cur_head (Snake.direction s)
                        ∈ drop 2 (Snake.positions s))) as [Hin|Hfree].
    + destruct (move_collision rnd apple s scr cur_head)
        as (d & Hmove' & _ & Hdd);
        [by unfold Snake.get_head_position; rewrite Hpos|done|].
      rewrite Hmove' in Hmove. injection Hmove as <- <-. done.
    + destruct (move_no_collision rnd apple s scr cur_head rest Hpos Hfree)
        as (s0 & Hmove' & _ & Hd0 & Hn0 & _).
      rewrite Hmove' in Hmove. injection Hmove as <- <-.
      by rewrite Hd0, Hn0.
Qed.

(** C9: from any state the game goes through, the direction in force after
    the input drain and [update_direction] is one of the four and is not
    the opposite of the direction in force before them, which is the
    effective direction of the previous step. *)
Theorem drain_apply_never_reverses (s s' : Snake.t) :
  reachable s →
  drain_apply_step s s' →
  Snake.direction s' ∈ directions ∧
  Snake.direction s' ≠ opposite (Snake.direction s).
Proof.
  intros Hreach Hstep.
  pose proof (reachable_inv s' (reachable_drain_apply s s' Hreach Hstep))
    as [Hd' _].
  split; [done|].
  destruct (reachable_inv s Hreach) as [Hd Hn].
  destruct Hstep as [events s s1 Hkeys].
  pose proof (handle_keys_frame _ _ _ Hkeys) as (_ & _ & Hdir & _).
  assert (pending_ok (Snake.direction s1) (Snake.next_direction s1)) as Hok.
  { eapply handle_keys_pending_ok; [done|]. rewrite Hn. by intros d' ?. }
  unfold Snake.update_direction.
  destruct (Snake.next_direction s1) as [d'|] eqn:Hn1; simpl.
  - rewrite <- Hdir. by destruct (Hok d').
  - rewrite Hdir. by apply direction_not_opposite.
Qed.

(** C3: the drain of a press of UP followed by a press of LEFT, or by a
    press of a key that is not an arrow, while the direction is RIGHT: the
    first press makes UP pending, the second stores the missing entry of
    the dictionary, [None], over it. *)
Theorem handle_keys_invalid_request_clears_pending :
  let s := Snake.init RIGHT in
  handle_keys [KEYDOWN K_UP] s = Ok (set_next_direction (Some UP) s) ∧
  handle_keys [KEYDOWN K_UP; KEYDOWN K_LEFT] s
    = Ok (set_next_direction None s) ∧
  handle_keys [KEYDOWN K_UP; KEYDOWN (K_OTHER 97)] s
    = Ok (set_next_direction None s).
Proof. repeat split. Qed.

(** ** The game loop *)

Lemma draw_Ok (s : Snake.t) scr h :
  Snake.get_head_position s = Some h → ∃ scr', Snake.draw s scr = Ok scr'.
Proof.
  intros Hh. unfold Snake.draw. rewrite Hh.
  destruct (Snake.old_position s); by eexists.
Qed.

Lemma drain_apply_head events (s s1 : Snake.t) :
  handle_keys events s = Ok s1 →
  Snake.get_head_position (Snake.update_direction s1)
    = Snake.get_head_position s.
Proof.
  intros Hkeys. unfold Snake.get_head_position.
  rewrite update_direction_positions.
  by apply handle_keys_frame in Hkeys as (-> & _).
Qed.

(** [move] raises only on a snake without cells. *)
Lemma move_Ok rnd apple (s : Snake.t) scr h :
  Snake.get_head_position s = Some h →
  ∃ s' scr', Snake.move rnd apple s scr = Ok (s', scr').
Proof.
  intros Hh. unfold Snake.get_head_position in Hh.
  destruct (Snake.positions s) as [|cur_head rest] eqn:Hpos; [done|].
  simpl in Hh. injection Hh as ->.
  destruct (decide (Snake.new_position h (Snake.direction s)
                      ∈ drop 2 (Snake.positions s))) as [Hin|Hfree].
  - destruct (move_collision rnd apple s scr h)
      as (d & Hmove & _);
      [by unfold Snake.get_head_position; rewrite Hpos|done|]. by eexists _, _.
  - destruct (move_no_collision rnd apple s scr h rest Hpos Hfree)
      as (s' & Hmove & _). by eexists _, _.
Qed.

(** The tick on which the head is on the apple: the snake moves with the
    apple, then the apple is relocated against the positions the move
    left. *)
Lemma tick_ate events rd rp (g : Game) (s1 : Snake.t) :
  handle_keys events (snake g) = Ok s1 →
  Snake.get_head_position (snake g) = Some (Apple.position (apple g)) →
  ∃ scr1 s3 scr3,
    Snake.move rd (Some (apple g)) (Snake.update_direction s1) scr1
      = Ok (s3, scr3) ∧
    tick events rd rp g =
      match Apple.randomize_position rp (iter_positions (Snake.positions s3))
              (apple g) with
      | Ok a => Ok {| snake := s3; apple := a; screen := scr3 |}
      | Raise x a => Raise x {| snake := s3; apple := a; screen := scr3 |}
      end.
Proof.
  intros Hkeys Hhead.
  destruct (draw_Ok (snake g) (Apple.draw (apple g) (screen g)) _ Hhead)
    as [scr1 Hdraw].
  pose proof (drain_apply_head _ _ _ Hkeys) as Hhead2. rewrite Hhead in Hhead2.
  destruct (move_Ok rd (Some (apple g)) _ scr1 _ Hhead2) as (s3 & scr3 & Hmove).
  exists scr1, s3, scr3. split; [done|].
  unfold tick. rewrite Hdraw, Hkeys, Hhead2.
  rewrite decide_True by done. by rewrite Hmove.
Qed.

(** The tick on which the head is elsewhere: the snake moves without the
    apple, and the apple is left alone. *)
Lemma tick_not_ate events rd rp (g : Game) (s1 : Snake.t) h :
  handle_keys events (snake g) = Ok s1 →
  Snake.get_head_position (snake g) = Some h →
  h ≠ Apple.position (apple g) →
  ∃ scr1 s3 scr3,
    Snake.move rd None (Snake.update_direction s1) scr1 = Ok (s3, scr3) ∧
    tick events rd rp g = Ok {| snake := s3; apple := apple g; screen := scr3 |}.
Proof.
  intros Hkeys Hhead Hne.
  destruct (draw_Ok (snake g) (Apple.draw (apple g) (screen g)) _ Hhead)
    as [scr1 Hdraw].
  pose proof (drain_apply_head _ _ _ Hkeys) as Hhead2. rewrite Hhead in Hhead2.
  destruct (move_Ok rd None _ scr1 _ Hhead2) as (s3 & scr3 & Hmove).
  exists scr1, s3, scr3. split; [done|].
  unfold tick. rewrite Hdraw, Hkeys, Hhead2.
  rewrite decide_False by done. by rewrite Hmove.
Qed.

Lemma grid_origin_free (l : list cell) :
  (0, 0) ∉ l → ∃ c, c ∈ Apple.grid_cells ∧ VCell c ∉ iter_positions l.
Proof.
  intros Hl. exists (0, 0). split.
  - apply elem_of_grid_cells. exists 0, 0. done.
  - unfold iter_positions. intros Hin.
    apply list_elem_of_fmap in Hin as (c & [= <-] & Hc). done.
Qed.

(** C1, as the code has it: the head is compared with the apple before the
    move, so the apple is eaten on the tick that starts with the head on
    it.  From a fresh snake moving right with the apple under its head, one
    tick without key presses takes the branch of the eaten apple, returns,
    and leaves a snake of length 2 on the new and the old head, and the
    apple on a grid cell that is neither. *)
Theorem tick_eats_item_under_head rd rp scr body_color :
  let old_head := GameObject_position in
  let new_head := Snake.new_position old_head RIGHT in
  let g := {| snake := Snake.init RIGHT;
              apple := {| Apple.position := old_head;
                          Apple.body_color := body_color |};
              screen := scr |} in
  ate_item (snake g) (apple g) = true ∧
  ∃ g',
    tick [] rd rp g = Ok g' ∧
    Snake.length (snake g') = 2 ∧
    Snake.positions (snake g') = [new_head; old_head] ∧
    Apple.position (apple g') ∈ Apple.grid_cells ∧
    Apple.position (apple g') ∉ [new_head; old_head].
Proof.
  intros old_head new_head g. split; [done|].
  destruct (tick_ate [] rd rp g (snake g)) as (scr1 & s3 & scr3 & Hmove & ->);
    [done|done|].
  assert (s3 = {| Snake.position := GameObject_position;
                  Snake.body_color := Some SNAKE_COLOR;
                  Snake.length := 2;
                  Snake.positions := [new_head; old_head];
                  Snake.old_position := None;
                  Snake.direction := RIGHT;
                  Snake.next_direction := None |}) as ->.
  { vm_compute in Hmove. by injection Hmove as <- _. }
  cbn [Snake.positions].
  destruct (randomize_position_lands rp (iter_positions [new_head; old_head])
              (apple g)) as (p & -> & Hgrid & Hfree).
  { apply grid_origin_free. rewrite !not_elem_of_cons, elem_of_nil.
    repeat split; [by vm_compute..|tauto]. }
  eexists. split; [done|]. cbn [snake apple Snake.length Snake.positions
    Apple.position]. repeat split; try done.
  intros Hin. apply Hfree. unfold iter_positions. by apply list_elem_of_fmap_2.
Qed.

(** C1, as stated, fails: with the apple one cell ahead of the fresh snake
    the head is not on the apple when the tick compares them; the tick
    moves the snake onto the apple, at length 1, and leaves the apple
    there. *)
Lemma tick_item_ahead_not_eaten :
  Apple.position (apple game_item_ahead)
    = Snake.new_position GameObject_position RIGHT ∧
  ate_item (snake game_item_ahead) (apple game_item_ahead) = false ∧
  ∃ g',
    tick [] 0 0 game_item_ahead = Ok g' ∧
    Snake.length (snake g') = 1 ∧
    Snake.positions (snake g') = [(340, 240)] ∧
    apple g' = apple game_item_ahead.
Proof.
  split; [done|]. split; [done|]. eexists. split; [by vm_compute|]. done.
Qed.

(** C8, as the code has it: on a tick that starts with the head on the
    apple the apple is relocated after the move whatever the move did.
    When the move resets the snake, the tick returns and the apple is
    relocated against the single cell of the fresh snake: it lands on a
    grid cell that is not the centre.  When the move goes through, the
    apple is relocated against the positions it left.  When the head is not
    on the apple, the tick returns and the apple is left alone. *)
Theorem tick_relocates_whenever_ate events rd rp (g : Game) (s1 : Snake.t) h :
  Snake.get_head_position (snake g) = Some h →
  handle_keys events (snake g) = Ok s1 →
  let s2 := Snake.update_direction s1 in
  let new_head := Snake.new_position h (Snake.direction s2) in
  (h = Apple.position (apple g) →
   new_head ∈ drop 2 (Snake.positions s2) →
   ∃ g' d,
     tick events rd rp g = Ok g' ∧
     snake g' = Snake.init d ∧
     Apple.randomize_position rp (iter_positions [GameObject_position])
       (apple g) = Ok (apple g') ∧
     Apple.position (apple g') ∈ Apple.grid_cells ∧
     Apple.position (apple g') ≠ GameObject_position) ∧
  (h = Apple.position (apple g) →
   new_head ∉ drop 2 (Snake.positions s2) →
   ∃ s3 scr3,
     Snake.positions s3 !! 0%nat = Some new_head ∧
     tick events rd rp g =
       match Apple.randomize_position rp
               (iter_positions (Snake.positions s3)) (apple g) with
       | Ok a => Ok {| snake := s3; apple := a; screen := scr3 |}
       | Raise x a => Raise x {| snake := s3; apple := a; screen := scr3 |}
       end) ∧
  (h ≠ Apple.position (apple g) →
   ∃ g', tick events rd rp g = Ok g' ∧ apple g' = apple g).
Proof.
  intros Hhead Hkeys s2 new_head.
  pose proof (drain_apply_head _ _ _ Hkeys) as Hhead2. rewrite Hhead in Hhead2.
  split; [|split].
  - intros -> Hin.
    destruct (tick_ate events rd rp g s1 Hkeys Hhead)
      as (scr1 & s3 & scr3 & Hmove & ->).
    destruct (move_collision rd (Some (apple g)) s2 scr1 _ Hhead2 Hin)
      as (d & Hmove' & _).
    fold s2 in Hmove. rewrite Hmove' in Hmove. injection Hmove as <- <-.
    change (Snake.positions (Snake.init d)) with [GameObject_position].
    destruct (randomize_position_lands rp (iter_positions [GameObject_position])
                (apple g)) as (p & Hp & Hgrid & Hfree).
    { apply grid_origin_free. rewrite not_elem_of_cons, elem_of_nil.
      split; [by vm_compute|tauto]. }
    rewrite Hp. eexists _, d. split; [reflexivity|].
    cbn [snake apple Apple.position].
    split; [reflexivity|]. split; [reflexivity|]. split; [exact Hgrid|].
    intros ->. apply Hfree. unfold iter_positions.
    apply list_elem_of_fmap_2. by apply list_elem_of_singleton.
  - intros -> Hfree.
    destruct (tick_ate events rd rp g s1 Hkeys Hhead)
      as (scr1 & s3 & scr3 & Hmove & ->).
    destruct (move_no_collision_head rd (Some (apple g)) s2 scr1 _ Hhead2 Hfree)
      as (s' & Hmove' & Hh').
    fold s2 in Hmove. rewrite Hmove' in Hmove. injection Hmove as <- <-.
    by exists s', scr1.
  - intros Hne.
    destruct (tick_not_ate events rd rp g s1 h Hkeys Hhead Hne)
      as (scr1 & s3 & scr3 & _ & ->). by eexists.
Qed.

(** C8, as stated, fails: the coiled snake has its head on the apple and
    turns right into its own body; the tick resets the snake and relocates
    the apple all the same, to another position. *)
Lemma tick_reset_relocates_item :
  ate_item (snake game_coiled) (apple game_coiled) = true ∧
  Snake.new_position (100, 100) RIGHT
    ∈ drop 2 (Snake.positions (snake game_coiled)) ∧
  ∃ g',
    tick [KEYDOWN K_RIGHT] 0 0 game_coiled = Ok g' ∧
    snake g' = Snake.init UP ∧
    Apple.position (apple g') ≠ Apple.position (apple game_coiled).
Proof.
  split; [done|]. split.
  { apply list_elem_of_lookup. exists 1%nat. reflexivity. }
  eexists. split; [by vm_compute|]. split; [done|]. by vm_compute.
Qed.

(** C2: [Apple()] hands [randomize_position] its own position, a tuple of
    two integers, where a list of positions is expected: no cell is taken
    out of the grid, the centre is among the free positions, and the draw
    759 places the apple on it, under the snake [Snake()] creates. *)
Theorem apple_init_on_snake_start :
  Apple.occupied (iter_tuple GameObject_position) = ∅ ∧
  GameObject_position ∈ Apple.free_positions (iter_tuple GameObject_position) ∧
  Apple.init 759
    = Ok {| Apple.position := GameObject_position;
            Apple.body_color := Some APPLE_COLOR |} ∧
  (∃ g, main_init 759 [] = Some g ∧
        Snake.positions (snake g) = [Apple.position (apple g)]).
Proof.
  split; [done|]. split.
  { apply elem_of_free_positions. split.
    - apply elem_of_grid_cells. exists 16, 12. done.
    - unfold iter_tuple. rewrite !not_elem_of_cons, elem_of_nil.
      repeat split; try done. tauto. }
  split; [by vm_compute|].
  eexists. split; [by vm_compute|]. done.
Qed.

(** With the head on the apple and a move that leaves a body covering the
    grid, the [IndexError] of the relocation leaves the tick, and so the
    loop: the snake has moved, the apple is where it was. *)
Lemma tick_exhausted_raises events rd rp (g : Game) (s1 : Snake.t) :
  handle_keys events (snake g) = Ok s1 →
  Snake.get_head_position (snake g) = Some (Apple.position (apple g)) →
  ∃ scr1 s3 scr3,
    Snake.move rd (Some (apple g)) (Snake.update_direction s1) scr1
      = Ok (s3, scr3) ∧
    ((∀ c, c ∈ Apple.grid_cells → c ∈ Snake.positions s3) →
     tick events rd rp g
       = Raise IndexError {| snake := s3; apple := apple g; screen := scr3 |}).
Proof.
  intros Hkeys Hhead.
  destruct (tick_ate events rd rp g s1 Hkeys Hhead)
    as (scr1 & s3 & scr3 & Hmove & ->).
  exists scr1, s3, scr3. split; [exact Hmove|]. intros Hall.
  destruct (Apple.randomize_position rp _ (apple g)) as [a|x a] eqn:Hr.
  - apply randomize_position_Ok in Hr as (_ & Hgrid & Hfree & _).
    destruct Hfree. unfold iter_positions. apply list_elem_of_fmap_2.
    by apply Hall.
  - by apply randomize_position_Raise in Hr as (-> & -> & _).
Qed.

(** The reset inside [move] is not part of the drain and apply step: the
    coiled snake turns right into its body, and the draw 2 restarts it to
    the left. *)
Lemma reset_may_reverse :
  ∃ s2 scr,
    drain_apply_step coiled_snake s2 ∧
    Snake.direction s2 = RIGHT ∧
    Snake.move 2 None s2 [] = Ok (Snake.init LEFT, scr) ∧
    Snake.direction (Snake.init LEFT) = opposite (Snake.direction s2).
Proof.
  eexists _, _. split.
  { apply (drain_apply_intro [KEYDOWN K_RIGHT]). reflexivity. }
  split; [reflexivity|]. split; reflexivity.
Qed.

(** ** The claims at concrete inputs *)

(** C7 at the fresh snake: only the centre is occupied. *)
Lemma randomize_position_free_witness :
  ∃ p,
    Apple.randomize_position 5 (iter_positions [GameObject_position])
      (apple game_item_ahead)
      = Ok {| Apple.position := p;
              Apple.body_color := Apple.body_color (apple game_item_ahead) |} ∧
    p ∈ Apple.grid_cells ∧
    (VCell p ∉ iter_positions [GameObject_position]) ∧
    (∀ c, c ∈ Apple.grid_cells →
          VCell c ∉ iter_positions [GameObject_position] →
          (∀ c', c' ∈ Apple.grid_cells → c' ≠ c →
                 VCell c' ∈ iter_positions [GameObject_position]) →
          p = c).
Proof.
  apply (randomize_position_free 5 (iter_positions [GameObject_position])
           (apple game_item_ahead)).
  exists (0, 0). split.
  - apply elem_of_grid_cells. exists 0, 0. vm_compute. intuition congruence.
  - unfold iter_positions. intros Hin.
    apply list_elem_of_fmap in Hin as (c & Hc & Hin).
    apply list_elem_of_singleton in Hin. subst c. vm_compute in Hc.
    discriminate Hc.
Defined.

(** C10 at a body that covers the grid. *)
Lemma randomize_position_exhausted_witness :
  Apple.randomize_position 5 (iter_positions Apple.grid_cells)
    (apple game_coiled)
  = Raise IndexError (apple game_coiled).
Proof.
  apply (randomize_position_exhausted 5 (iter_positions Apple.grid_cells)
           (apple game_coiled)).
  intros c Hc. unfold iter_positions. apply list_elem_of_fmap_2. exact Hc.
Defined.

(** C4 at the coiled snake once it has turned right. *)
Lemma move_collision_resets_witness :
  ∃ d self',
    Snake.move 2 None
      (Snake.update_direction (set_next_direction (Some RIGHT) coiled_snake)) []
      = Ok (self', Fill BOARD_BACKGROUND_COLOR :: []) ∧
    self' = Snake.init d ∧
    Snake.length self' = 1 ∧
    Snake.positions self' = [(320, 240)] ∧
    Snake.next_direction self' = None ∧
    Snake.old_position self' = None ∧
    Snake.direction self' = d ∧
    d ∈ directions ∧
    directions !! (2 `mod` 4)%nat = Some d.
Proof.
  apply (move_collision_resets 2 None
           (Snake.update_direction
              (set_next_direction (Some RIGHT) coiled_snake)) [] (100, 100)).
  - reflexivity.
  - apply list_elem_of_lookup. exists 1%nat. reflexivity.
Defined.

(** C5 at the fresh snake. *)
Lemma move_new_head_witness :
  let d := Snake.direction (Snake.init RIGHT) in
  let new_head := Snake.new_position GameObject_position d in
  ∃ self',
    Snake.move 0 None (Snake.init RIGHT) [] = Ok (self', []) ∧
    Snake.get_head_position self' = Some new_head ∧
    (0 ≤ new_head.1 < SCREEN_WIDTH ∧ 0 ≤ new_head.2 < SCREEN_HEIGHT) ∧
    (∀ c : Z * Z, GameObject_position = to_pixels c →
       let c' := spec_wrap (c.1 + d.1, c.2 + d.2) in
       new_head = to_pixels c' ∧
       0 ≤ c'.1 < GRID_WIDTH ∧ 0 ≤ c'.2 < GRID_HEIGHT).
Proof.
  apply (move_new_head 0 None (Snake.init RIGHT) [] GameObject_position).
  - reflexivity.
  - simpl. apply not_elem_of_nil.
Defined.

(** C6 at the fresh snake, with the apple. *)
Lemma move_length_invariant_witness :
  ∃ self' scr',
    Snake.move 0 (Some (apple game_item_ahead)) (Snake.init RIGHT) []
      = Ok (self', scr') ∧
    Snake.positions self' ≠ [] ∧
    Z.of_nat (length (Snake.positions self')) = Snake.length self' ∧
    1 ≤ Snake.length self'.
Proof.
  apply (move_length_invariant 0 (Some (apple game_item_ahead))
           (Snake.init RIGHT) []).
  - simpl. discriminate.
  - reflexivity.
Defined.

(** C9 at the first tick, with a press of UP. *)
Lemma drain_apply_never_reverses_witness :
  Snake.direction
    (Snake.update_direction (set_next_direction (Some UP) (Snake.init RIGHT)))
    ∈ directions ∧
  Snake.direction
    (Snake.update_direction (set_next_direction (Some UP) (Snake.init RIGHT)))
    ≠ opposite (Snake.direction (Snake.init RIGHT)).
Proof.
  apply (drain_apply_never_reverses (Snake.init RIGHT)
           (Snake.update_direction
              (set_next_direction (Some UP) (Snake.init RIGHT)))).
  - apply reachable_init.
  - apply (drain_apply_intro [KEYDOWN K_UP]). reflexivity.
Defined.

(** C8 at the coiled snake, which turns right into its body with its head
    on the apple. *)
Lemma tick_relocates_whenever_ate_witness :
  ∃ g' d,
    tick [KEYDOWN K_RIGHT] 3 7 game_coiled = Ok g' ∧
    snake g' = Snake.init d ∧
    Apple.randomize_position 7 (iter_positions [GameObject_position])
      (apple game_coiled) = Ok (apple g') ∧
    Apple.position (apple g') ∈ Apple.grid_cells ∧
    Apple.position (apple g') ≠ GameObject_position.
Proof.
  apply (tick_relocates_whenever_ate [KEYDOWN K_RIGHT] 3 7 game_coiled
           (set_next_direction (Some RIGHT) coiled_snake) (100, 100)).
  - reflexivity.
  - reflexivity.
  - reflexivity.
  - apply list_elem_of_lookup. exists 1%nat. reflexivity.
Defined.

(** * Further properties of the code *)

(** ** The event queue *)

Lemma set_next_direction_twice v v' (s : Snake.t) :
  set_next_direction v' (set_next_direction v s) = set_next_direction v' s.
Proof. reflexivity. Qed.

Lemma set_next_direction_same (s : Snake.t) :
  set_next_direction (Snake.next_direction s) s = s.
Proof. by destruct s. Qed.

(** Draining two queues one after the other is draining their
    concatenation; a raise in the first one ends the drain. *)
Theorem handle_keys_app (events1 events2 : list event) (s : Snake.t) :
  handle_keys (events1 ++ events2) s =
    match handle_keys events1 s with
    | Ok s1 => handle_keys events2 s1
    | Raise x s1 => Raise x s1
    end.
Proof.
  revert s. induction events1 as [|e events1 IH]; intros s; [done|].
  cbn [app handle_keys]. destruct (handle_event e s) as [s1|x s1]; [|done].
  apply IH.
Qed.

(** The drain raises only [SystemExit], and only when the queue holds a
    [QUIT] event. *)
Theorem handle_keys_Raise (events : list event) (s s' : Snake.t) x :
  handle_keys events s = Raise x s' →
  x = SystemExit ∧ QUIT ∈ events.
Proof.
  revert s. induction events as [|e events IH]; intros s; [done|].
  cbn [handle_keys]. destruct e as [|k|ty]; cbn [handle_event].
  - intros [= <- <-]. split; [done|]. apply list_elem_of_here.
  - intros Hr. apply IH in Hr as [-> Hq]. split; [done|].
    by apply list_elem_of_further.
  - intros Hr. apply IH in Hr as [-> Hq]. split; [done|].
    by apply list_elem_of_further.
Qed.

Lemma handle_keys_Raise_witness :
  SystemExit = SystemExit ∧ QUIT ∈ [KEYDOWN K_UP; QUIT; KEYDOWN K_DOWN].
Proof.
  apply (handle_keys_Raise [KEYDOWN K_UP; QUIT; KEYDOWN K_DOWN]
           (Snake.init RIGHT)
           (set_next_direction (Some UP) (Snake.init RIGHT)) SystemExit).
  reflexivity.
Defined.

(** At the first [QUIT] the drain raises [SystemExit]: the events before it
    have been handled, the events after it are never looked at. *)
Theorem handle_keys_quit (events1 events2 : list event) (s : Snake.t) :
  QUIT ∉ events1 →
  ∃ s1,
    handle_keys events1 s = Ok s1 ∧
    handle_keys (events1 ++ QUIT :: events2) s = Raise SystemExit s1.
Proof.
  intros Hq. destruct (handle_keys_Ok events1 s Hq) as [s1 Hs1].
  exists s1. split; [exact Hs1|].
  revert s Hs1. induction events1 as [|e events1 IH]; intros s Hs1.
  - cbn in Hs1 |- *. by injection Hs1 as ->.
  - apply not_elem_of_cons in Hq as [Hne Hq].
    cbn [app handle_keys] in Hs1 |- *.
    destruct (handle_event e s) as [s0|x s0]; [|done]. by apply IH.
Qed.

Lemma handle_keys_quit_witness :
  ∃ s1,
    handle_keys [KEYDOWN K_UP] (Snake.init RIGHT) = Ok s1 ∧
    handle_keys ([KEYDOWN K_UP] ++ QUIT :: [KEYDOWN K_DOWN]) (Snake.init RIGHT)
      = Raise SystemExit s1.
Proof.
  apply (handle_keys_quit [KEYDOWN K_UP] [KEYDOWN K_DOWN] (Snake.init RIGHT)).
  rewrite not_elem_of_cons, elem_of_nil. split; [discriminate|tauto].
Defined.

(** The pending direction after a drain without [QUIT]. *)
Lemma handle_keys_pending (events : list event) (s s1 : Snake.t) :
  QUIT ∉ events →
  handle_keys events s = Ok s1 →
  Snake.next_direction s1 =
    match last_keydown events with
    | Some k => dict_get events_dict (k, Snake.direction s)
    | None => Snake.next_direction s
    end.
Proof.
  revert s. induction events as [|e events IH]; intros s Hq.
  { by intros [= <-]. }
  apply not_elem_of_cons in Hq as [Hne Hq].
  cbn [handle_keys last_keydown]. destruct e as [|k|ty]; [done| |].
  - cbn [handle_event]. intros Hs1. rewrite (IH _ Hq Hs1).
    by destruct (last_keydown events).
  - cbn [handle_event]. intros Hs1. rewrite (IH _ Hq Hs1).
    by destruct (last_keydown events).
Qed.

(** The last key press wins: after a drain without [QUIT] the snake is as
    before, except that the pending direction is the entry of the
    dictionary for the last key pressed and the direction in force, [None]
    when there is no such entry; without a key press nothing changes. *)
Theorem handle_keys_last_keydown (events : list event) (s : Snake.t) :
  QUIT ∉ events →
  handle_keys events s =
    Ok (match last_keydown events with
        | Some k =>
            set_next_direction
              (dict_get events_dict (k, Snake.direction s)) s
        | None => s
        end).
Proof.
  revert s. induction events as [|e events IH]; intros s Hq; [done|].
  apply not_elem_of_cons in Hq as [Hne Hq].
  cbn [handle_keys last_keydown]. destruct e as [|k|ty]; [done| |].
  - cbn [handle_event]. rewrite IH by done.
    destruct (last_keydown events) as [k'|]; reflexivity.
  - cbn [handle_event]. rewrite IH by done.
    destruct (last_keydown events) as [k'|]; reflexivity.
Qed.

Lemma handle_keys_last_keydown_witness :
  handle_keys [KEYDOWN K_UP; OTHER_EVENT 4; KEYDOWN K_DOWN; OTHER_EVENT 1]
    (Snake.init RIGHT) =
    Ok (match last_keydown
                [KEYDOWN K_UP; OTHER_EVENT 4; KEYDOWN K_DOWN; OTHER_EVENT 1]
        with
        | Some k =>
            set_next_direction
              (dict_get events_dict (k, Snake.direction (Snake.init RIGHT)))
              (Snake.init RIGHT)
        | None => Snake.init RIGHT
        end).
Proof.
  apply (handle_keys_last_keydown
           [KEYDOWN K_UP; OTHER_EVENT 4; KEYDOWN K_DOWN; OTHER_EVENT 1]
           (Snake.init RIGHT)).
  rewrite !not_elem_of_cons, elem_of_nil. repeat split; try discriminate.
  tauto.
Defined.

(** The dictionary, entry by entry: a key and a direction have an entry
    exactly when the key is an arrow, the direction is one of the four, and
    the arrow is neither the direction nor its opposite; the entry is the
    direction of the arrow. *)
Theorem events_dict_entries (k : key) (d d' : direction_t) :
  dict_get events_dict (k, d) = Some d' ↔
  key_direction k = Some d' ∧ d ∈ directions ∧ d' ≠ d ∧ d' ≠ opposite d.
Proof.
  split.
  - intros Hget. pose proof (events_dict_turn k d d' Hget) as (Hd & _ & Ho & Hn).
    split; [|done]. revert Hget. unfold events_dict. cbn [dict_get].
    repeat case_decide; intros; simplify_eq; done.
  - intros (Hk & Hd & Hn & Ho). apply elem_of_directions in Hd.
    destruct k; simplify_eq/=;
      destruct Hd as [-> | [-> | [-> | ->]]]; done.
Qed.

(** ** The arithmetic of [move] *)

Lemma center_grid_cell : GameObject_position ∈ Apple.grid_cells.
Proof. apply elem_of_grid_cells. exists 16, 12. done. Qed.

Lemma grid_cell_in_bounds (c : cell) : c ∈ Apple.grid_cells → in_bounds c.
Proof.
  intros (x & y & Hx & Hy & ->)%elem_of_grid_cells.
  change GRID_WIDTH with 32 in Hx. change GRID_HEIGHT with 24 in Hy.
  unfold in_bounds, SCREEN_WIDTH, SCREEN_HEIGHT, GRID_SIZE. cbn [fst snd].
  lia.
Qed.

(** A step from a cell of the grid, whatever the pair used as a direction,
    ends on a cell of the grid. *)
Lemma new_position_grid_cell (c : cell) (d : direction_t) :
  c ∈ Apple.grid_cells → Snake.new_position c d ∈ Apple.grid_cells.
Proof.
  intros (x & y & Hx & Hy & ->)%elem_of_grid_cells.
  change (x * GRID_SIZE, y * GRID_SIZE) with (to_pixels (x, y)).
  rewrite new_position_wrap. apply elem_of_grid_cells.
  destruct (spec_wrap_in_bounds ((x, y).1 + d.1, (x, y).2 + d.2)) as [H1 H2].
  eexists _, _. split; [exact H1|]. split; [exact H2|]. reflexivity.
Qed.

(** Stepping back undoes a step: on the screen, a step in a direction
    followed by a step in the opposite direction returns to the start, at
    the edges too. *)
Theorem new_position_opposite (c : cell) (d : direction_t) :
  in_bounds c →
  Snake.new_position (Snake.new_position c d) (opposite d) = c.
Proof.
  intros [Hx Hy]. destruct c as [x y], d as [dx dy].
  unfold Snake.new_position, opposite. cbn [fst snd] in *.
  rewrite !Zplus_mod_idemp_l.
  replace (x + dx * GRID_SIZE + - dx * GRID_SIZE) with x by lia.
  replace (y + dy * GRID_SIZE + - dy * GRID_SIZE) with y by lia.
  by rewrite !Z.mod_small.
Qed.

Lemma new_position_opposite_witness :
  Snake.new_position (Snake.new_position (620, 0) RIGHT) (opposite RIGHT)
    = (620, 0).
Proof.
  apply (new_position_opposite (620, 0) RIGHT).
  unfold in_bounds, SCREEN_WIDTH, SCREEN_HEIGHT. simpl. lia.
Defined.

(** [n] steps in one direction, in closed form. *)
Lemma steps_closed_form (n : nat) (d : direction_t) (c : cell) :
  in_bounds c →
  steps n d c =
    ((c.1 + Z.of_nat n * d.1 * GRID_SIZE) `mod` SCREEN_WIDTH,
     (c.2 + Z.of_nat n * d.2 * GRID_SIZE) `mod` SCREEN_HEIGHT).
Proof.
  intros [Hx Hy]. destruct c as [x y], d as [dx dy]. cbn [fst snd] in *.
  induction n as [|n IH].
  - change (steps 0 (dx, dy) (x, y)) with (x, y).
    change (Z.of_nat 0) with 0.
    rewrite !Z.mul_0_l, !Z.add_0_r, !Z.mod_small by done. done.
  - change (steps (S n) (dx, dy) (x, y))
      with (Snake.new_position (steps n (dx, dy) (x, y)) (dx, dy)).
    rewrite IH. unfold Snake.new_position. cbn [fst snd].
    rewrite !Zplus_mod_idemp_l. f_equal; f_equal; lia.
Qed.

(** The screen is a torus: a full lap brings the head back.  From any
    position on the screen, [GRID_WIDTH] steps to the right or to the left,
    or [GRID_HEIGHT] steps up or down, end where they started. *)
Theorem steps_lap (c : cell) :
  in_bounds c →
  steps (Z.to_nat GRID_WIDTH) RIGHT c = c ∧
  steps (Z.to_nat GRID_WIDTH) LEFT c = c ∧
  steps (Z.to_nat GRID_HEIGHT) UP c = c ∧
  steps (Z.to_nat GRID_HEIGHT) DOWN c = c.
Proof.
  intros Hc. pose proof Hc as [Hx Hy]. destruct c as [x y].
  cbn [fst snd] in *. rewrite !steps_closed_form by done.
  unfold RIGHT, LEFT, UP, DOWN. cbn [fst snd].
  change (Z.of_nat (Z.to_nat GRID_WIDTH)) with 32.
  change (Z.of_nat (Z.to_nat GRID_HEIGHT)) with 24.
  change GRID_SIZE with 20.
  change (32 * 1 * 20) with (1 * SCREEN_WIDTH).
  change (32 * -1 * 20) with (-1 * SCREEN_WIDTH).
  change (24 * 1 * 20) with (1 * SCREEN_HEIGHT).
  change (24 * -1 * 20) with (-1 * SCREEN_HEIGHT).
  change (32 * 0 * 20) with 0. change (24 * 0 * 20) with 0.
  rewrite !Z_mod_plus_full, !Z.add_0_r, !Z.mod_small by done. done.
Qed.

Lemma steps_lap_witness :
  steps (Z.to_nat GRID_WIDTH) RIGHT GameObject_position
    = GameObject_position ∧
  steps (Z.to_nat GRID_WIDTH) LEFT GameObject_position
    = GameObject_position ∧
  steps (Z.to_nat GRID_HEIGHT) UP GameObject_position
    = GameObject_position ∧
  steps (Z.to_nat GRID_HEIGHT) DOWN GameObject_position
    = GameObject_position.
Proof.
  apply (steps_lap GameObject_position).
  unfold in_bounds. repeat split; by vm_compute.
Defined.

(** ** What [move] does to the body *)

Lemma lookup_removelast {A : Type} (l : list A) (i : nat) (a : A) :
  removelast l !! i = Some a → l !! i = Some a.
Proof.
  revert i. induction l as [|x l IH]; intros i; [done|].
  destruct l as [|y l]; [done|].
  change (removelast (x :: y :: l)) with (x :: removelast (y :: l)).
  destruct i as [|i]; [done|]. cbn [lookup list_lookup]. apply IH.
Qed.

Lemma elem_of_removelast {A : Type} (l : list A) (a : A) :
  a ∈ removelast l → a ∈ l.
Proof.
  intros (i & Hi)%list_elem_of_lookup_1. apply lookup_removelast in Hi.
  by eapply list_elem_of_lookup_2.
Qed.

(** The two ways [move] returns from a snake with a head. *)
Lemma move_cases rnd apple (s : Snake.t) scr h rest :
  Snake.positions s = h :: rest →
  let new_head := Snake.new_position h (Snake.direction s) in
  ∃ s' scr',
    Snake.move rnd apple s scr = Ok (s', scr') ∧
    ((new_head ∈ drop 2 (Snake.positions s) ∧
      scr' = Fill BOARD_BACKGROUND_COLOR :: scr ∧
      ∃ d, d ∈ directions ∧ s' = Snake.init d) ∨
     ((new_head ∉ drop 2 (Snake.positions s)) ∧
      scr' = scr ∧
      Snake.direction s' = Snake.direction s ∧
      Snake.next_direction s' = Snake.next_direction s ∧
      Snake.length s'
        = (if apple is Some _ then Snake.length s + 1 else Snake.length s) ∧
      ((Z.of_nat (S (length (Snake.positions s))) > Snake.length s' ∧
        Snake.positions s' = new_head :: removelast (Snake.positions s)) ∨
       (¬ Z.of_nat (S (length (Snake.positions s))) > Snake.length s' ∧
        Snake.positions s' = new_head :: Snake.positions s)))).
Proof.
  intros Hpos new_head.
  destruct (decide (new_head ∈ drop 2 (Snake.positions s))) as [Hin|Hfree].
  - destruct (move_collision rnd apple s scr h) as (d & Hmove & _ & Hd);
      [by unfold Snake.get_head_position; rewrite Hpos|done|].
    eexists _, _. split; [exact Hmove|]. left.
    split; [done|]. split; [done|]. by exists d.
  - destruct (move_no_collision rnd apple s scr h rest Hpos Hfree)
      as (s' & Hmove & Hl & Hd & Hn & Hcases).
    exists s', scr. split; [exact Hmove|]. right.
    split; [done|]. split; [done|]. split; [done|]. split; [done|].
    split; [done|].
    destruct Hcases as [(? & ? & _)|(? & ? & _)]; [by left|by right].
Qed.

(** A step without the apple, on a snake whose body has its length: the
    new position comes first, the last cell leaves the body and is kept as
    [old_position]; nothing else changes. *)
Theorem move_step rnd (self : Snake.t) scr cur_head :
  Snake.get_head_position self = Some cur_head →
  Z.of_nat (length (Snake.positions self)) = Snake.length self →
  Snake.new_position cur_head (Snake.direction self)
    ∉ drop 2 (Snake.positions self) →
  Snake.move rnd None self scr =
    Ok ({| Snake.position := Snake.position self;
           Snake.body_color := Snake.body_color self;
           Snake.length := Snake.length self;
           Snake.positions :=
             Snake.new_position cur_head (Snake.direction self)
               :: removelast (Snake.positions self);
           Snake.old_position := last (Snake.positions self);
           Snake.direction := Snake.direction self;
           Snake.next_direction := Snake.next_direction self |}, scr).
Proof.
  intros Hhead Hlen Hfree. unfold Snake.move. rewrite Hhead.
  cbv beta iota zeta. rewrite decide_True by done.
  unfold Snake.get_head_position in Hhead.
  destruct (Snake.positions self) as [|h rest] eqn:Hpos; [done|].
  injection Hhead as ->.
  rewrite decide_True by (cbn [length] in *; lia).
  unfold pop. rewrite last_cons_cons.
  destruct (last (cur_head :: rest)) as [z|] eqn:Hz; [done|].
  by apply last_None in Hz.
Qed.

Lemma move_step_witness :
  Snake.move 0 None coiled_snake [] =
    Ok ({| Snake.position := Snake.position coiled_snake;
           Snake.body_color := Snake.body_color coiled_snake;
           Snake.length := Snake.length coiled_snake;
           Snake.positions :=
             Snake.new_position (100, 100) (Snake.direction coiled_snake)
               :: removelast (Snake.positions coiled_snake);
           Snake.old_position := last (Snake.positions coiled_snake);
           Snake.direction := Snake.direction coiled_snake;
           Snake.next_direction := Snake.next_direction coiled_snake |}, []).
Proof.
  apply (move_step 0 coiled_snake [] (100, 100)).
  - reflexivity.
  - reflexivity.
  - refine (bool_decide_unpack _ _). vm_compute. exact I.
Defined.

(** A step with the apple, on a snake whose body has its length: the new
    position comes first, no cell leaves the body, the length grows by one;
    [old_position] keeps the cell of an earlier step. *)
Theorem move_grow rnd apple (self : Snake.t) scr cur_head :
  Snake.get_head_position self = Some cur_head →
  Z.of_nat (length (Snake.positions self)) = Snake.length self →
  Snake.new_position cur_head (Snake.direction self)
    ∉ drop 2 (Snake.positions self) →
  Snake.move rnd (Some apple) self scr =
    Ok ({| Snake.position := Snake.position self;
           Snake.body_color := Snake.body_color self;
           Snake.length := Snake.length self + 1;
           Snake.positions :=
             Snake.new_position cur_head (Snake.direction self)
               :: Snake.positions self;
           Snake.old_position := Snake.old_position self;
           Snake.direction := Snake.direction self;
           Snake.next_direction := Snake.next_direction self |}, scr).
Proof.
  intros Hhead Hlen Hfree. unfold Snake.move. rewrite Hhead.
  cbv beta iota zeta. rewrite decide_True by done.
  rewrite decide_False by (cbn [length] in *; lia). done.
Qed.

Lemma move_grow_witness :
  Snake.move 0 (Some (apple game_coiled)) coiled_snake [] =
    Ok ({| Snake.position := Snake.position coiled_snake;
           Snake.body_color := Snake.body_color coiled_snake;
           Snake.length := Snake.length coiled_snake + 1;
           Snake.positions :=
             Snake.new_position (100, 100) (Snake.direction coiled_snake)
               :: Snake.positions coiled_snake;
           Snake.old_position := Snake.old_position coiled_snake;
           Snake.direction := Snake.direction coiled_snake;
           Snake.next_direction := Snake.next_direction coiled_snake |}, []).
Proof.
  apply (move_grow 0 (apple game_coiled) coiled_snake [] (100, 100)).
  - reflexivity.
  - reflexivity.
  - refine (bool_decide_unpack _ _). vm_compute. exact I.
Defined.

(** [move] trims with an [if], once: without a reset the body never gets
    shorter and gains at most the new head, whatever its length says; on a
    step without the apple a body longer than its length stays longer. *)
Theorem move_pops_at_most_one rnd apple (self : Snake.t) scr cur_head :
  Snake.get_head_position self = Some cur_head →
  Snake.new_position cur_head (Snake.direction self)
    ∉ drop 2 (Snake.positions self) →
  ∃ self',
    Snake.move rnd apple self scr = Ok (self', scr) ∧
    (length (Snake.positions self) ≤ length (Snake.positions self')
       ≤ S (length (Snake.positions self)))%nat ∧
    (apple = None →
     Snake.length self < Z.of_nat (length (Snake.positions self)) →
     Snake.length self' < Z.of_nat (length (Snake.positions self'))).
Proof.
  intros Hhead Hfree. unfold Snake.get_head_position in Hhead.
  destruct (Snake.positions self) as [|h rest] eqn:Hpos; [done|].
  injection Hhead as ->.
  destruct (move_no_collision rnd apple self scr cur_head rest Hpos)
    as (self' & Hmove & Hl & _ & _ & Hcases); [by rewrite Hpos|].
  exists self'. split; [exact Hmove|]. rewrite Hpos in Hcases.
  destruct Hcases as [(Hgt & -> & _)|(Hle & -> & _)].
  - cbn [length] in *. rewrite length_removelast_cons.
    split; [lia|]. intros ->. lia.
  - cbn [length] in *. split; [lia|]. intros ->. lia.
Qed.

Lemma move_pops_at_most_one_witness :
  ∃ self',
    Snake.move 0 None coiled_snake [] = Ok (self', []) ∧
    (length (Snake.positions coiled_snake) ≤ length (Snake.positions self')
       ≤ S (length (Snake.positions coiled_snake)))%nat ∧
    (@None Apple.t = None →
     Snake.length coiled_snake
       < Z.of_nat (length (Snake.positions coiled_snake)) →
     Snake.length self' < Z.of_nat (length (Snake.positions self'))).
Proof.
  apply (move_pops_at_most_one 0 None coiled_snake [] (100, 100)).
  - reflexivity.
  - refine (bool_decide_unpack _ _). vm_compute. exact I.
Defined.

(** [move] resets the snake exactly when the new position is in
    [positions[2:]]: the head and the cell behind it are never a collision,
    every other cell of the body is. *)
Theorem move_resets_iff rnd apple (self : Snake.t) scr cur_head :
  Snake.get_head_position self = Some cur_head →
  (∃ d, Snake.move rnd apple self scr
          = Ok (Snake.init d, Fill BOARD_BACKGROUND_COLOR :: scr)) ↔
  Snake.new_position cur_head (Snake.direction self)
    ∈ drop 2 (Snake.positions self).
Proof.
  intros Hhead. split.
  - intros [d Hmove].
    destruct (decide (Snake.new_position cur_head (Snake.direction self)
                        ∈ drop 2 (Snake.positions self))) as [Hin|Hfree];
      [exact Hin|].
    destruct (move_no_collision_head rnd apple self scr cur_head Hhead Hfree)
      as (self' & Hmove' & _).
    rewrite Hmove' in Hmove. injection Hmove as _ Hscr.
    apply (f_equal length) in Hscr. cbn [length] in Hscr. lia.
  - intros Hin.
    destruct (move_collision rnd apple self scr cur_head Hhead Hin)
      as (d & Hmove & _). by exists d.
Qed.

Lemma move_resets_iff_witness :
  (∃ d, Snake.move 0 None coiled_snake []
          = Ok (Snake.init d, Fill BOARD_BACKGROUND_COLOR :: [])) ↔
  Snake.new_position (100, 100) (Snake.direction coiled_snake)
    ∈ drop 2 (Snake.positions coiled_snake).
Proof.
  apply (move_resets_iff 0 None coiled_snake [] (100, 100)). reflexivity.
Defined.

(** ** What [move] keeps *)

Lemma connected_singleton (c : cell) : connected [c].
Proof. intros i a b _ Hb. destruct i; done. Qed.

Lemma connected_cons (a b : cell) (l : list cell) :
  adjacent a b → connected (b :: l) → connected (a :: b :: l).
Proof.
  intros Hab Hl [|i] x y Hx Hy.
  - cbn in Hx, Hy. by simplify_eq.
  - cbn in Hx, Hy. by eapply Hl.
Qed.

Lemma connected_removelast (l : list cell) :
  connected l → connected (removelast l).
Proof.
  intros Hl i a b Ha Hb. apply lookup_removelast in Ha, Hb. by eapply Hl.
Qed.

(** The body after a step that does not reset is on the grid when it was,
    trimmed or not. *)
Lemma grid_after_step (new_head h : cell) (rest l' : list cell) :
  Forall (λ c, c ∈ Apple.grid_cells) (h :: rest) →
  new_head ∈ Apple.grid_cells →
  l' = new_head :: removelast (h :: rest) ∨ l' = new_head :: h :: rest →
  Forall (λ c, c ∈ Apple.grid_cells) l'.
Proof.
  intros Hl Hnew [-> | ->]; apply Forall_cons; (split; [done|]); [|done].
  apply Forall_forall. intros c Hc%elem_of_removelast.
  by eapply Forall_forall in Hl.
Qed.

(** And connected when it was. *)
Lemma connected_after_step (new_head h : cell) (rest l' : list cell) :
  connected (h :: rest) →
  adjacent new_head h →
  l' = new_head :: removelast (h :: rest) ∨ l' = new_head :: h :: rest →
  connected l'.
Proof.
  intros Hl Hadj [-> | ->]; [|by apply connected_cons].
  destruct rest as [|y rest]; [apply connected_singleton|].
  change (removelast (h :: y :: rest)) with (h :: removelast (y :: rest)).
  apply connected_cons; [done|].
  change (h :: removelast (y :: rest)) with (removelast (h :: y :: rest)).
  by apply connected_removelast.
Qed.

(** [move] keeps the body on the grid: when every cell of the body is a
    cell of the grid, [move] returns and every cell of the body it leaves
    is one, after a step, a step with the apple, or a reset. *)
Theorem move_keeps_grid rnd apple (self : Snake.t) scr :
  Snake.positions self ≠ [] →
  Forall (λ c, c ∈ Apple.grid_cells) (Snake.positions self) →
  ∃ self' scr',
    Snake.move rnd apple self scr = Ok (self', scr') ∧
    Forall (λ c, c ∈ Apple.grid_cells) (Snake.positions self').
Proof.
  intros Hne Hgrid.
  destruct (Snake.positions self) as [|h rest] eqn:Hpos; [done|].
  destruct (move_cases rnd apple self scr h rest Hpos)
    as (s' & scr' & Hmove & Hcases).
  exists s', scr'. split; [exact Hmove|]. rewrite Hpos in Hcases.
  destruct Hcases as [(_ & _ & d & _ & ->)|(_ & _ & _ & _ & _ & Hp)].
  - apply Forall_singleton, center_grid_cell.
  - eapply (grid_after_step _ h rest); [done| |].
    + apply new_position_grid_cell. by apply Forall_cons in Hgrid as [? _].
    + destruct Hp as [[_ ->]|[_ ->]]; [by left|by right].
Qed.

Lemma move_keeps_grid_witness :
  ∃ self' scr',
    Snake.move 0 None (Snake.init LEFT) [] = Ok (self', scr') ∧
    Forall (λ c, c ∈ Apple.grid_cells) (Snake.positions self').
Proof.
  apply (move_keeps_grid 0 None (Snake.init LEFT) []).
  - discriminate.
  - apply Forall_singleton, center_grid_cell.
Defined.



(** [move] keeps what holds of the snake at the start of a tick. *)
Lemma move_snake_inv rnd apple (s : Snake.t) scr :
  snake_inv s →
  ∃ s' scr',
    Snake.move rnd apple s scr = Ok (s', scr') ∧
    snake_inv s' ∧
    (Snake.positions s' = [GameObject_position] ∨
     ∃ new_head,
       Snake.positions s' = new_head :: removelast (Snake.positions s) ∨
       Snake.positions s' = new_head :: Snake.positions s).
Proof.
  intros [Hne Hlen Hgrid Hconn Hdir Hpend].
  destruct (Snake.positions s) as [|h rest] eqn:Hpos; [done|].
  destruct (move_cases rnd apple s scr h rest Hpos)
    as (s' & scr' & Hmove & Hcases).
  exists s', scr'. split; [exact Hmove|]. rewrite Hpos in Hcases.
  destruct Hcases as [(_ & _ & d & Hd & ->)
                     |(_ & _ & Hd' & Hn' & Hl' & Hp)].
  - split; [|by left].
    split; [done|done|apply Forall_singleton, center_grid_cell
           |apply connected_singleton|done|done].
  - assert (Snake.positions s'
              = Snake.new_position h (Snake.direction s)
                  :: removelast (h :: rest) ∨
            Snake.positions s'
              = Snake.new_position h (Snake.direction s) :: h :: rest)
      as Hp' by (destruct Hp as [[_ ->]|[_ ->]]; [by left|by right]).
    split; [|right; by eexists]. split.
    + by destruct Hp' as [-> | ->].
    + rewrite Hl'. destruct Hp as [[Hgt ->]|[Hle ->]].
      * cbn [length] in *. rewrite length_removelast_cons.
        destruct apple; lia.
      * cbn [length] in *. destruct apple; lia.
    + eapply (grid_after_step _ h rest); [done| |done].
      apply new_position_grid_cell. by apply Forall_cons in Hgrid as [? _].
    + eapply (connected_after_step _ h rest); [done| |done].
      by exists (Snake.direction s).
    + by rewrite Hd'.
    + by rewrite Hn'.
Qed.

(** ** Where the apple can land *)

Lemma apple_init_unfold rnd :
  Apple.init rnd =
    Apple.randomize_position rnd (iter_tuple GameObject_position)
      {| Apple.position := GameObject_position;
         Apple.body_color := Some APPLE_COLOR |}.
Proof. reflexivity. Qed.

(** Iterating a position yields no position: nothing is occupied. *)
Lemma free_positions_iter_tuple (c p : cell) :
  p ∈ Apple.free_positions (iter_tuple c) ↔ p ∈ Apple.grid_cells.
Proof.
  rewrite elem_of_free_positions. unfold iter_tuple.
  rewrite !not_elem_of_cons, elem_of_nil. split; [tauto|].
  intros Hp. split; [done|]. repeat split; try discriminate. tauto.
Qed.

Lemma choice_lookup {A : Type} (rnd : nat) (seq : list A) :
  seq ≠ [] → choice rnd seq = seq !! (rnd `mod` length seq)%nat.
Proof. by destruct seq. Qed.

Lemma NoDup_free_positions (snake_positions : list pyval) :
  NoDup (Apple.free_positions snake_positions).
Proof. unfold Apple.free_positions. apply NoDup_elements. Qed.

(** [Apple()] never raises: it returns a red apple on a cell of the grid;
    and every cell of the grid, the centre under the new snake included, is
    where some draw puts it. *)
Theorem apple_init_any_cell :
  (∀ rnd, ∃ p,
     Apple.init rnd = Ok {| Apple.position := p;
                            Apple.body_color := Some APPLE_COLOR |} ∧
     p ∈ Apple.grid_cells) ∧
  (∀ p, p ∈ Apple.grid_cells →
     ∃ rnd,
       Apple.init rnd = Ok {| Apple.position := p;
                              Apple.body_color := Some APPLE_COLOR |}).
Proof.
  split.
  - intros rnd. rewrite apple_init_unfold.
    destruct (randomize_position_lands rnd (iter_tuple GameObject_position)
                {| Apple.position := GameObject_position;
                   Apple.body_color := Some APPLE_COLOR |})
      as (p & Hp & Hgrid & _).
    { exists GameObject_position. split; [apply center_grid_cell|].
      unfold iter_tuple. rewrite !not_elem_of_cons, elem_of_nil.
      repeat split; try discriminate. tauto. }
    exists p. split; [exact Hp|exact Hgrid].
  - intros p Hp. apply (free_positions_iter_tuple GameObject_position) in Hp.
    destruct (choice_surjective _ _ Hp) as [rnd Hrnd].
    exists rnd. rewrite apple_init_unfold. unfold Apple.randomize_position.
    rewrite Hrnd. reflexivity.
Qed.

(** Relocation is as uniform as the draw: a free cell of the grid sits at
    one index of the tuple of free positions, and relocation lands on it
    exactly for the draws that reduce to that index. *)
Theorem randomize_position_uniform (snake_positions : list pyval)
    (self : Apple.t) (c : cell) :
  c ∈ Apple.grid_cells →
  VCell c ∉ snake_positions →
  ∃ i : nat,
    (i < length (Apple.free_positions snake_positions))%nat ∧
    ∀ rnd,
      Apple.randomize_position rnd snake_positions self
        = Ok {| Apple.position := c;
                Apple.body_color := Apple.body_color self |} ↔
      (rnd `mod` length (Apple.free_positions snake_positions))%nat = i.
Proof.
  intros Hgrid Hfree.
  assert (c ∈ Apple.free_positions snake_positions) as Hc
    by by apply elem_of_free_positions.
  destruct (list_elem_of_lookup_1 _ _ Hc) as [i Hi].
  exists i. split; [by eapply lookup_lt_Some|].
  assert (Apple.free_positions snake_positions ≠ []) as Hne.
  { intros Hnil. rewrite Hnil in Hc. by apply elem_of_nil in Hc. }
  intros rnd. unfold Apple.randomize_position.
  rewrite (choice_lookup rnd _ Hne). split.
  - destruct (Apple.free_positions snake_positions
                !! (rnd `mod` length (Apple.free_positions snake_positions))%nat)
      as [p|] eqn:Hp; [|done].
    intros Heq. assert (p = c) as Hpc by congruence. subst p.
    eapply NoDup_lookup; [apply NoDup_free_positions|exact Hp|exact Hi].
  - intros ->. by rewrite Hi.
Qed.

Lemma randomize_position_uniform_witness :
  ∃ i : nat,
    (i < length (Apple.free_positions (iter_positions [GameObject_position])))%nat ∧
    ∀ rnd,
      Apple.randomize_position rnd (iter_positions [GameObject_position])
        (apple game_coiled)
        = Ok {| Apple.position := (0, 0);
                Apple.body_color := Apple.body_color (apple game_coiled) |} ↔
      (rnd `mod` length
         (Apple.free_positions (iter_positions [GameObject_position])))%nat
        = i.
Proof.
  apply (randomize_position_uniform (iter_positions [GameObject_position])
           (apple game_coiled) (0, 0)).
  - apply elem_of_grid_cells. exists 0, 0. vm_compute. intuition congruence.
  - unfold iter_positions. intros Hin.
    apply list_elem_of_fmap in Hin as (c & Hc & Hin).
    apply list_elem_of_singleton in Hin. subst c. vm_compute in Hc.
    discriminate Hc.
Defined.

(** ** The game from tick to tick *)

Lemma free_positions_nil (l : list cell) :
  Apple.free_positions (iter_positions l) = [] →
  ∀ c, c ∈ Apple.grid_cells → c ∈ l.
Proof.
  intros Hnil c Hc. destruct (decide (c ∈ l)) as [Hin|Hout]; [exact Hin|].
  assert (c ∈ Apple.free_positions (iter_positions l)) as Hfree.
  { apply elem_of_free_positions. split; [exact Hc|].
    unfold iter_positions. intros (c' & [= <-] & Hc')%list_elem_of_fmap.
    done. }
  rewrite Hnil in Hfree. by apply elem_of_nil in Hfree.
Qed.

Lemma update_direction_length (s : Snake.t) :
  Snake.length (Snake.update_direction s) = Snake.length s.
Proof. unfold Snake.update_direction. by destruct (Snake.next_direction s). Qed.

(** The drain and [update_direction] keep what holds of the snake at the
    start of a tick, and leave the body alone. *)
Lemma drain_apply_snake_inv events (s s1 : Snake.t) :
  snake_inv s →
  handle_keys events s = Ok s1 →
  snake_inv (Snake.update_direction s1) ∧
  Snake.positions (Snake.update_direction s1) = Snake.positions s.
Proof.
  intros [Hne Hlen Hgrid Hconn Hdir Hpend] Hkeys.
  pose proof (handle_keys_frame _ _ _ Hkeys) as (Hp & Hl & Hd & _).
  assert (pending_ok (Snake.direction s1) (Snake.next_direction s1)) as Hok.
  { eapply handle_keys_pending_ok; [done|]. rewrite Hpend. by intros d' ?. }
  assert (Snake.positions (Snake.update_direction s1) = Snake.positions s)
    as Hp' by by rewrite update_direction_positions.
  split; [|exact Hp'].
  split; rewrite ?Hp', ?update_direction_length, ?Hl; try done.
  - unfold Snake.update_direction.
    destruct (Snake.next_direction s1) as [d'|] eqn:Hn1; cbn.
    + by destruct (Hok d').
    + by rewrite Hd.
  - unfold Snake.update_direction.
    by destruct (Snake.next_direction s1) as [d'|] eqn:Hn1.
Qed.

(** A [QUIT] anywhere in the queue: the drain raises [SystemExit], and the
    snake it leaves has the body, the length and the direction it had. *)
Lemma handle_keys_QUIT events (s : Snake.t) :
  QUIT ∈ events →
  ∃ s',
    handle_keys events s = Raise SystemExit s' ∧
    Snake.positions s' = Snake.positions s ∧
    Snake.length s' = Snake.length s ∧
    Snake.direction s' = Snake.direction s.
Proof.
  revert s. induction events as [|e events IH]; intros s Hq.
  { by apply elem_of_nil in Hq. }
  cbn [handle_keys]. destruct e as [|k|ty]; cbn [handle_event].
  - by exists s.
  - apply elem_of_cons in Hq as [Hq|Hq]; [done|].
    destruct (IH (set_next_direction
                    (dict_get events_dict (k, Snake.direction s)) s) Hq)
      as (s' & -> & Hs'). by exists s'.
  - apply elem_of_cons in Hq as [Hq|Hq]; [done|]. by apply IH.
Qed.

(** One tick from a state of the game, without [QUIT] in the queue. *)
Lemma tick_inv_step events rd rp (g : Game) :
  game_inv g →
  QUIT ∉ events →
  (∃ g', tick events rd rp g = Ok g' ∧ game_inv g') ∨
  (∃ g', tick events rd rp g = Raise IndexError g' ∧
         apple g' = apple g ∧
         ∀ c, c ∈ Apple.grid_cells → c ∈ Snake.positions (snake g')).
Proof.
  intros [Hsnake Hagrid Hatail] Hq.
  destruct (handle_keys_Ok events (snake g) Hq) as [s1 Hkeys].
  destruct (drain_apply_snake_inv events _ _ Hsnake Hkeys) as [Hinv2 Hpos2].
  destruct (Snake.positions (snake g)) as [|h rest] eqn:Hpos.
  { by destruct Hsnake. }
  assert (Snake.get_head_position (snake g) = Some h) as Hhead
    by (unfold Snake.get_head_position; by rewrite Hpos).
  destruct (decide (h = Apple.position (apple g))) as [Heq|Hne].
  - rewrite Heq in Hhead.
    destruct (tick_ate events rd rp g s1 Hkeys Hhead)
      as (scr1 & s3 & scr3 & Hmove & ->).
    destruct (move_snake_inv rd (Some (apple g)) _ scr1 Hinv2)
      as (s3' & scr3' & Hmove' & Hinv3 & _).
    rewrite Hmove' in Hmove. injection Hmove as <- <-.
    destruct (Apple.randomize_position rp _ (apple g)) as [a|x a] eqn:Hr.
    + left. eexists. split; [reflexivity|].
      apply randomize_position_Ok in Hr as (_ & Hgrid & Hfree & _).
      split; [exact Hinv3|exact Hgrid|]. cbn [snake apple].
      intros Hin. apply Hfree. unfold iter_positions.
      apply list_elem_of_fmap_2. by eapply subseteq_drop.
    + right. apply randomize_position_Raise in Hr as (-> & -> & Hnil).
      eexists. split; [reflexivity|]. split; [reflexivity|].
      cbn [snake]. by apply free_positions_nil.
  - destruct (tick_not_ate events rd rp g s1 h Hkeys Hhead Hne)
      as (scr1 & s3 & scr3 & Hmove & ->).
    destruct (move_snake_inv rd None _ scr1 Hinv2)
      as (s3' & scr3' & Hmove' & Hinv3 & Hshape).
    rewrite Hmove' in Hmove. injection Hmove as <- <-.
    left. eexists. split; [reflexivity|].
    split; [exact Hinv3|exact Hagrid|]. cbn [snake apple].
    assert (Apple.position (apple g) ∉ h :: rest) as Hout.
    { apply not_elem_of_cons. split; [done|]. exact Hatail. }
    rewrite Hpos2 in Hshape.
    destruct Hshape as [-> |[new_head [-> | ->]]]; cbn [drop].
    + apply not_elem_of_nil.
    + intros Hin%elem_of_removelast. done.
    + done.
Qed.

(** A tick without [QUIT] in the queue keeps the game sound.  From a game
    whose snake has a body of its length, on the grid, in one piece, with
    one of the four directions and nothing pending, and whose apple is on
    the grid and not under the body behind the head, the tick returns a
    game of which all this holds again; or the head was on the apple, the
    body now covers the grid, and the tick raises [IndexError] with the
    apple left where it was. *)
Theorem tick_without_quit events rd rp (g : Game) :
  game_inv g →
  QUIT ∉ events →
  (∃ g', tick events rd rp g = Ok g' ∧ game_inv g') ∨
  (∃ g', tick events rd rp g = Raise IndexError g' ∧
         apple g' = apple g ∧
         ate_item (snake g) (apple g) = true ∧
         ∀ c, c ∈ Apple.grid_cells → c ∈ Snake.positions (snake g')).
Proof.
  intros Hinv Hq.
  destruct (tick_inv_step events rd rp g Hinv Hq)
    as [Hok|(g' & Htick & Happle & Hfull)]; [by left|].
  right. exists g'. split; [exact Htick|]. split; [exact Happle|].
  split; [|exact Hfull].
  apply bool_decide_eq_true_2.
  destruct Hinv as [[Hne _ _ _ _ _] _ _].
  destruct (Snake.positions (snake g)) as [|h rest] eqn:Hpos; [done|].
  assert (Snake.get_head_position (snake g) = Some h) as Hhead
    by (unfold Snake.get_head_position; by rewrite Hpos).
  destruct (decide (h = Apple.position (apple g))) as [<-|Hneq]; [done|].
  destruct (handle_keys_Ok events (snake g) Hq) as [s1 Hkeys].
  destruct (tick_not_ate events rd rp g s1 h Hkeys Hhead Hneq)
    as (? & ? & ? & _ & Hok). congruence.
Qed.

Lemma game_item_ahead_inv : game_inv game_item_ahead.
Proof.
  split; [split|..]; cbn.
  - discriminate.
  - reflexivity.
  - apply Forall_singleton, center_grid_cell.
  - apply connected_singleton.
  - apply elem_of_directions. tauto.
  - reflexivity.
  - apply elem_of_grid_cells. exists 17, 12. done.
  - apply not_elem_of_nil.
Qed.

Lemma tick_without_quit_witness :
  (∃ g', tick [KEYDOWN K_UP] 0 0 game_item_ahead = Ok g' ∧ game_inv g') ∨
  (∃ g', tick [KEYDOWN K_UP] 0 0 game_item_ahead = Raise IndexError g' ∧
         apple g' = apple game_item_ahead ∧
         ate_item (snake game_item_ahead) (apple game_item_ahead) = true ∧
         ∀ c, c ∈ Apple.grid_cells → c ∈ Snake.positions (snake g')).
Proof.
  apply (tick_without_quit [KEYDOWN K_UP] 0 0 game_item_ahead).
  - apply game_item_ahead_inv.
  - rewrite not_elem_of_cons, elem_of_nil. split; [discriminate|tauto].
Defined.

(** A [QUIT] anywhere in the queue ends the tick before the snake moves:
    the tick raises [SystemExit]; the body, the length and the direction of
    the snake and the apple are as they were, whatever keys were pressed
    before or after the [QUIT]. *)
Theorem tick_quit events rd rp (g : Game) h :
  Snake.get_head_position (snake g) = Some h →
  QUIT ∈ events →
  ∃ g',
    tick events rd rp g = Raise SystemExit g' ∧
    apple g' = apple g ∧
    Snake.positions (snake g') = Snake.positions (snake g) ∧
    Snake.length (snake g') = Snake.length (snake g) ∧
    Snake.direction (snake g') = Snake.direction (snake g).
Proof.
  intros Hhead Hq.
  destruct (draw_Ok (snake g) (Apple.draw (apple g) (screen g)) h Hhead)
    as [scr1 Hdraw].
  destruct (handle_keys_QUIT events (snake g) Hq)
    as (s' & Hkeys & Hp & Hl & Hd).
  eexists. unfold tick. rewrite Hdraw, Hkeys. split; [reflexivity|].
  cbn [snake apple]. done.
Qed.

Lemma tick_quit_witness :
  ∃ g',
    tick [KEYDOWN K_UP; QUIT; KEYDOWN K_DOWN] 0 0 game_item_ahead
      = Raise SystemExit g' ∧
    apple g' = apple game_item_ahead ∧
    Snake.positions (snake g') = Snake.positions (snake game_item_ahead) ∧
    Snake.length (snake g') = Snake.length (snake game_item_ahead) ∧
    Snake.direction (snake g') = Snake.direction (snake game_item_ahead).
Proof.
  apply (tick_quit [KEYDOWN K_UP; QUIT; KEYDOWN K_DOWN] 0 0 game_item_ahead
           GameObject_position).
  - reflexivity.
  - apply list_elem_of_lookup. exists 1%nat. reflexivity.
Defined.

(** [main] reaches its loop: [Apple()] returns, and the game the loop
    starts from is sound. *)
Lemma main_init_inv rnd scr :
  ∃ g0, main_init rnd scr = Some g0 ∧ game_inv g0.
Proof.
  unfold main_init. rewrite apple_init_unfold.
  destruct (randomize_position_lands rnd (iter_tuple GameObject_position)
              {| Apple.position := GameObject_position;
                 Apple.body_color := Some APPLE_COLOR |})
    as (p & -> & Hgrid & _).
  { exists GameObject_position. split; [apply center_grid_cell|].
    unfold iter_tuple. rewrite !not_elem_of_cons, elem_of_nil.
    repeat split; try discriminate. tauto. }
  eexists. split; [reflexivity|].
  split; [split|..]; cbn.
  - discriminate.
  - reflexivity.
  - apply Forall_singleton, center_grid_cell.
  - apply connected_singleton.
  - apply elem_of_directions. tauto.
  - reflexivity.
  - exact Hgrid.
  - apply not_elem_of_nil.
Qed.

Lemma main_loop_inv (inputs : list (list event * nat * nat)) (g : Game) :
  game_inv g →
  Forall (λ i, QUIT ∉ i.1.1) inputs →
  (∃ g', main_loop inputs g = Ok g' ∧ game_inv g') ∨
  (∃ g', main_loop inputs g = Raise IndexError g' ∧
         ∀ c, c ∈ Apple.grid_cells → c ∈ Snake.positions (snake g')).
Proof.
  revert g. induction inputs as [|[[events rd] rp] inputs IH]; intros g Hinv Hq.
  { left. by exists g. }
  apply Forall_cons in Hq as [Hq Hqs]. cbn [main_loop].
  destruct (tick_inv_step events rd rp g Hinv Hq)
    as [(g' & -> & Hinv')|(g' & -> & _ & Hfull)].
  - by apply IH.
  - right. by exists g'.
Qed.

(** The whole program, as long as nobody quits: [main] reaches its loop,
    and after any number of ticks, whatever the keys and the draws, the
    game is sound (body of its length, on the grid, in one piece; apple on
    the grid and not under the body behind the head), unless a tick raised
    [IndexError] when the body covered the grid. *)
Theorem main_runs rnd scr (inputs : list (list event * nat * nat)) :
  Forall (λ i, QUIT ∉ i.1.1) inputs →
  ∃ g0,
    main_init rnd scr = Some g0 ∧
    ((∃ g', main_loop inputs g0 = Ok g' ∧ game_inv g') ∨
     (∃ g', main_loop inputs g0 = Raise IndexError g' ∧
            ∀ c, c ∈ Apple.grid_cells → c ∈ Snake.positions (snake g'))).
Proof.
  intros Hq. destruct (main_init_inv rnd scr) as (g0 & Hinit & Hinv).
  exists g0. split; [exact Hinit|]. by apply main_loop_inv.
Qed.

Lemma main_runs_witness :
  ∃ g0,
    main_init 759 [] = Some g0 ∧
    ((∃ g', main_loop [([KEYDOWN K_UP], 0, 3)%nat; ([], 1, 4)%nat] g0 = Ok g' ∧
            game_inv g') ∨
     (∃ g', main_loop [([KEYDOWN K_UP], 0, 3)%nat; ([], 1, 4)%nat] g0
              = Raise IndexError g' ∧
            ∀ c, c ∈ Apple.grid_cells → c ∈ Snake.positions (snake g'))).
Proof.
  apply (main_runs 759 [] [([KEYDOWN K_UP], 0, 3)%nat; ([], 1, 4)%nat]).
  repeat apply Forall_cons_2; [| |apply Forall_nil_2]; cbn.
  - rewrite not_elem_of_cons, elem_of_nil. split; [discriminate|tauto].
  - apply not_elem_of_nil.
Defined.

(** [update_direction] applies the pending direction, if any, and leaves
    nothing pending. *)
Lemma update_direction_applies (s : Snake.t) :
  Snake.direction (Snake.update_direction s)
    = default (Snake.direction s) (Snake.next_direction s) ∧
  Snake.next_direction (Snake.update_direction s) = None.
Proof.
  unfold Snake.update_direction.
  by destruct (Snake.next_direction s) as [d|] eqn:Hn.
Qed.

(** The direction a tick moves in: after the drain of a queue without
    [QUIT] and [update_direction], on a snake with nothing pending, the
    direction is the entry of the dictionary for the last key pressed,
    and the direction in force when there is no such entry or no key
    press; nothing is pending afterwards. *)
Theorem drain_apply_direction (events : list event) (s : Snake.t) :
  Snake.next_direction s = None →
  QUIT ∉ events →
  ∃ s1,
    handle_keys events s = Ok s1 ∧
    Snake.direction (Snake.update_direction s1) =
      default (Snake.direction s)
        (k ← last_keydown events;
         dict_get events_dict (k, Snake.direction s)) ∧
    Snake.next_direction (Snake.update_direction s1) = None.
Proof.
  intros Hn Hq. destruct (handle_keys_Ok events s Hq) as [s1 Hkeys].
  exists s1. split; [exact Hkeys|].
  pose proof (handle_keys_pending events s s1 Hq Hkeys) as Hpend.
  pose proof (handle_keys_frame _ _ _ Hkeys) as (_ & _ & Hd & _).
  destruct (update_direction_applies s1) as [-> ->]. split; [|done].
  rewrite Hd, Hpend.
  destruct (last_keydown events) as [k|]; [reflexivity|].
  rewrite Hn. reflexivity.
Qed.

Lemma drain_apply_direction_witness :
  ∃ s1,
    handle_keys [KEYDOWN K_UP; KEYDOWN K_DOWN] (Snake.init RIGHT) = Ok s1 ∧
    Snake.direction (Snake.update_direction s1) =
      default (Snake.direction (Snake.init RIGHT))
        (k ← last_keydown [KEYDOWN K_UP; KEYDOWN K_DOWN];
         dict_get events_dict (k, Snake.direction (Snake.init RIGHT))) ∧
    Snake.next_direction (Snake.update_direction s1) = None.
Proof.
  apply (drain_apply_direction [KEYDOWN K_UP; KEYDOWN K_DOWN]
           (Snake.init RIGHT)).
  - reflexivity.
  - rewrite !not_elem_of_cons, elem_of_nil. repeat split; try discriminate.
    tauto.
Defined.

(** The length after a tick that returns. *)
Lemma tick_length_Ok events rd rp (g : Game) :
  game_inv g →
  QUIT ∉ events →
  ∀ g', tick events rd rp g = Ok g' →
    (∃ d, snake g' = Snake.init d) ∨
    Snake.length (snake g')
      = Snake.length (snake g)
        + (if ate_item (snake g) (apple g) then 1 else 0).
Proof.
  intros [Hsnake _ _] Hq g' Htick.
  destruct (handle_keys_Ok events (snake g) Hq) as [s1 Hkeys].
  destruct (drain_apply_snake_inv events _ _ Hsnake Hkeys) as [_ Hpos2].
  pose proof (handle_keys_frame _ _ _ Hkeys) as (_ & Hl1 & _).
  destruct (Snake.positions (snake g)) as [|h rest] eqn:Hpos.
  { by destruct Hsnake. }
  assert (Snake.get_head_position (snake g) = Some h) as Hhead
    by (unfold Snake.get_head_position; by rewrite Hpos).
  unfold ate_item. rewrite Hhead.
  destruct (decide (h = Apple.position (apple g))) as [Heq|Hne].
  - rewrite bool_decide_eq_true_2 by by rewrite Heq.
    rewrite Heq in Hhead.
    destruct (tick_ate events rd rp g s1 Hkeys Hhead)
      as (scr1 & s3 & scr3 & Hmove & Heqt).
    rewrite Heqt in Htick.
    destruct (move_cases rd (Some (apple g)) _ scr1 h rest Hpos2)
      as (s3' & scr3' & Hmove' & Hcases).
    rewrite Hmove' in Hmove. injection Hmove as <- <-.
    destruct (Apple.randomize_position rp _ (apple g)) as [a|x a];
      [|done].
    injection Htick as <-. cbn [snake].
    destruct Hcases as [(_ & _ & d & _ & ->)|(_ & _ & _ & _ & Hl & _)].
    + left. by exists d.
    + right. by rewrite Hl, update_direction_length, Hl1.
  - rewrite bool_decide_eq_false_2 by congruence.
    destruct (tick_not_ate events rd rp g s1 h Hkeys Hhead Hne)
      as (scr1 & s3 & scr3 & Hmove & Heqt).
    rewrite Heqt in Htick. injection Htick as <-. cbn [snake].
    destruct (move_cases rd None _ scr1 h rest Hpos2)
      as (s3' & scr3' & Hmove' & Hcases).
    rewrite Hmove' in Hmove. injection Hmove as <- <-.
    destruct Hcases as [(_ & _ & d & _ & ->)|(_ & _ & _ & _ & Hl & _)].
    + left. by exists d.
    + right. rewrite Hl, update_direction_length, Hl1. lia.
Qed.

(** The snake grows exactly on the ticks that start with its head on the
    apple: without [QUIT] in the queue, a tick of a sound game returns and
    leaves a fresh snake (the move reset it) or a snake whose length is the
    one it had, plus one when the head was on the apple at the start of the
    tick; or it raises [IndexError]. *)
Theorem tick_length events rd rp (g : Game) :
  game_inv g →
  QUIT ∉ events →
  (∃ g',
     tick events rd rp g = Ok g' ∧
     ((∃ d, snake g' = Snake.init d) ∨
      Snake.length (snake g')
        = Snake.length (snake g)
          + (if ate_item (snake g) (apple g) then 1 else 0))) ∨
  (∃ g', tick events rd rp g = Raise IndexError g').
Proof.
  intros Hinv Hq.
  destruct (tick_inv_step events rd rp g Hinv Hq)
    as [(g' & Htick & _)|(g' & Htick & _)].
  - left. exists g'. split; [exact Htick|].
    by apply (tick_length_Ok events rd rp g Hinv Hq).
  - right. by exists g'.
Qed.

Lemma tick_length_witness :
  (∃ g',
     tick [KEYDOWN K_UP] 0 0 game_item_ahead = Ok g' ∧
     ((∃ d, snake g' = Snake.init d) ∨
      Snake.length (snake g')
        = Snake.length (snake game_item_ahead)
          + (if ate_item (snake game_item_ahead) (apple game_item_ahead)
             then 1 else 0))) ∨
  (∃ g', tick [KEYDOWN K_UP] 0 0 game_item_ahead = Raise IndexError g').
Proof.
  apply (tick_length [KEYDOWN K_UP] 0 0 game_item_ahead).
  - apply game_item_ahead_inv.
  - rewrite not_elem_of_cons, elem_of_nil. split; [discriminate|tauto].
Defined.
